(** * sched: scheduler-latency sampling, history buffer and Check protocol

    A shallow embedding of [sched.go] (package [sched]): the sample
    record, the threshold predicate, the circular history buffer, the
    rendered table and the sampling loop with its Check protocol, and
    the properties of these. *)

From Stdlib Require Import ZArith Lia Bool Ascii.
From Stdlib Require Import SpecFloat.
From stdpp Require Import base option list strings.

Local Open Scope Z_scope.

(** ** Machine integers *)

(** Go's [int], [int64] and [time.Duration] on a 64-bit platform, with
    the two's complement wrap-around written out. *)
Definition minInt64 : Z := - 2 ^ 63.
Definition maxInt64 : Z := 2 ^ 63 - 1.

Definition wrap64 (z : Z) : Z := (z + 2 ^ 63) mod 2 ^ 64 - 2 ^ 63.

Definition add64 (a b : Z) : Z := wrap64 (a + b).
Definition sub64 (a b : Z) : Z := wrap64 (a - b).

Definition in_int64 (z : Z) : Prop := minInt64 <= z <= maxInt64.

(** The line feed that [Fprintln] and the row format end with. *)
Definition LF : ascii := "010"%char.
Definition nl : string := String LF "".

(** ** The parts of package [time] that [sched.go] uses *)

Module time.

(** A [Duration] is an [int64] count of nanoseconds. *)
Definition Duration : Type := Z.

Definition Nanosecond : Duration := 1.
Definition Microsecond : Duration := 1000 * Nanosecond.
Definition Millisecond : Duration := 1000 * Microsecond.
Definition Second : Duration := 1000 * Millisecond.

(** A [Time] is a wall-clock instant, here the number of nanoseconds
    since the zero instant (January 1, year 1, 00:00:00 UTC), and,
    when the value came from [time.Now], a monotonic clock reading. *)
Record Time : Type := mkTime { wall : Z; mono : option Z }.

(** The zero value of [Time], which the slots of a fresh array hold. *)
Definition zero : Time := {| wall := 0; mono := None |}.

Definition IsZero (t : Time) : bool := wall t =? 0.

Definition saturate (z : Z) : Duration :=
  if z <? minInt64 then minInt64
  else if maxInt64 <? z then maxInt64
  else z.

(** [t.Sub(u)]: the monotonic readings are used when both values have
    one; a difference out of the range of [Duration] saturates. *)
Definition Sub (t u : Time) : Duration :=
  match mono t, mono u with
  | Some mt, Some mu => saturate (mt - mu)
  | _, _ => saturate (wall t - wall u)
  end.

(** [float64] values, as IEEE 754 binary64. *)
Definition float64_of_int (z : Z) : spec_float :=
  binary_normalize 53 1024 z 0 false.

(** [d.Seconds()]: [float64(d / Second) + float64(d % Second) / 1e9]. *)
Definition Seconds (d : Duration) : spec_float :=
  let sec := Z.quot d Second in
  let nsec := Z.rem d Second in
  SFadd 53 1024 (float64_of_int sec)
    (SFdiv 53 1024 (float64_of_int nsec) (float64_of_int 1000000000)).

(** [byte(d) + '0'] *)
Definition digit (d : Z) : ascii := ascii_of_N (Z.to_N (d + 48)).

(** [fmtInt] writes the decimal digits of [v] in front of [buf]; a
    [uint64] has at most 20 of them. *)
Fixpoint fmtInt_loop (fuel : nat) (buf : string) (v : Z) : string :=
  match fuel with
  | O => buf
  | S fuel' =>
      if 0 <? v
      then fmtInt_loop fuel' (String (digit (v mod 10)) buf) (v / 10)
      else buf
  end.

Definition fmtInt (buf : string) (v : Z) : string :=
  if v =? 0 then String "0" buf else fmtInt_loop 20 buf v.

(** [fmtFrac] writes the fraction of [v / 10^prec] in front of [buf],
    without trailing zeros, and returns [v / 10^prec] with it. *)
Fixpoint fmtFrac_loop (prec : nat) (buf : string) (print : bool) (v : Z)
  : string * bool * Z :=
  match prec with
  | O => (buf, print, v)
  | S prec' =>
      let d := v mod 10 in
      let print := print || negb (d =? 0) in
      let buf := if print then String (digit d) buf else buf in
      fmtFrac_loop prec' buf print (v / 10)
  end.

Definition fmtFrac (buf : string) (v : Z) (prec : nat) : string * Z :=
  let '(buf, print, v) := fmtFrac_loop prec buf false v in
  (if print then String "." buf else buf, v).

(** The two bytes of the micro sign U+00B5 in UTF-8. *)
Definition micro (buf : string) : string :=
  String "194" (String "181" buf).

(** [d.String()] *)
Definition String_ (d : Duration) : string :=
  let neg := d <? 0 in
  let u := d mod 2 ^ 64 in
  let u := if neg then (- u) mod 2 ^ 64 else u in
  if u <? Second then
    if u =? 0 then "0s"
    else
      let '(buf, prec) :=
        if u <? Microsecond then ("ns", 0%nat)
        else if u <? Millisecond then (micro "s", 3%nat)
        else ("ms", 6%nat) in
      let '(buf, u) := fmtFrac buf u prec in
      let buf := fmtInt buf u in
      if neg then String "-" buf else buf
  else
    let '(buf, u) := fmtFrac "s" u 9 in
    let buf := fmtInt buf (u mod 60) in
    let u := u / 60 in
    let buf :=
      if 0 <? u then
        let buf := fmtInt (String "m" buf) (u mod 60) in
        let u := u / 60 in
        if 0 <? u then fmtInt (String "h" buf) u else buf
      else buf in
    if neg then String "-" buf else buf.

End time.

(** ** The parts of package [fmt] that [sched.go] uses *)

Module fmt.

(** [utf8.RuneCountInString] on well-formed UTF-8: every byte but the
    continuation bytes [10xxxxxx] starts a rune. *)
Definition is_continuation (c : ascii) : bool :=
  let n := Z.of_N (N_of_ascii c) in (128 <=? n) && (n <? 192).

Fixpoint RuneCount (s : string) : Z :=
  match s with
  | EmptyString => 0
  | String c s' => (if is_continuation c then 0 else 1) + RuneCount s'
  end.

Fixpoint spaces (n : nat) : string :=
  match n with
  | O => ""
  | S n' => String " " (spaces n')
  end.

(** Padding on the left to width [wid], counted in runes; a longer
    text is written whole. *)
Definition pad (wid : Z) (s : string) : string :=
  spaces (Z.to_nat (wid - RuneCount s)) +:+ s.

(** Exactly [n] decimal digits of [v], written in front of [buf]. *)
Fixpoint fixed_digits (n : nat) (buf : string) (v : Z) : string :=
  match n with
  | O => buf
  | S n' => fixed_digits n' (String (time.digit (v mod 10)) buf) (v / 10)
  end.

(** The integer nearest to [m * 2^e * 10^prec], ties to even. *)
Definition round_scaled (m e : Z) (prec : nat) : Z :=
  let num := m * 10 ^ Z.of_nat prec in
  if 0 <=? e then num * 2 ^ e
  else
    let den := 2 ^ (- e) in
    let q := num / den in
    let r := num mod den in
    if (den <? 2 * r) || ((den =? 2 * r) && Z.odd q) then q + 1 else q.

(** [strconv.AppendFloat(_, v, 'f', prec, 64)] without its sign. *)
Definition decimal_f (m e : Z) (prec : nat) : string :=
  let q := round_scaled m e prec in
  let frac :=
    match prec with
    | O => ""
    | _ => String "." (fixed_digits prec "" (q mod 10 ^ Z.of_nat prec))
    end in
  let int := q / 10 ^ Z.of_nat prec in
  if int =? 0 then String "0" frac else time.fmtInt_loop 400 frac int.

(** The verb [%wid.precf] without flags, as [fmtFloat] writes it. *)
Definition verb_f (wid : Z) (prec : nat) (v : spec_float) : string :=
  pad wid
    match v with
    | S754_zero s =>
        (if s then "-" else "") +:+ decimal_f 0 0 prec
    | S754_finite s m e =>
        (if s then "-" else "") +:+ decimal_f (Z.pos m) e prec
    | S754_infinity s => if s then "-Inf" else "+Inf"
    | S754_nan => "NaN"
    end.

(** The verb [%widv] on a [time.Duration], which is a [Stringer]. *)
Definition verb_v (wid : Z) (d : time.Duration) : string :=
  pad wid (time.String_ d).

End fmt.

(** ** Package [sched] *)

(** *** Constants and package variables *)

Definition sampleInterval : time.Duration := 1 * time.Second.
Definition testSleep : time.Duration := 50 * time.Millisecond.
Definition historySize : Z := 100.
Definition numChainRoutines : Z := 20.

Record sample : Type := mkSample {
  start : time.Time;
  oversleep : time.Duration;
  bufSend : time.Duration;
  pingPong : time.Duration;
  chain : time.Duration
}.

(** The zero value of [sample], held by every slot of [samples] when the
    program starts. *)
Definition zero_sample : sample :=
  {| start := time.zero; oversleep := 0; bufSend := 0; pingPong := 0;
     chain := 0 |}.

(** The package variables: the four exported thresholds, and
    [nextIndex] and [samples], which [mu] guards. *)
Record globals : Type := mkGlobals {
  OversleepThreshold : time.Duration;
  ChanSendThreshold : time.Duration;
  PingPongThreshold : time.Duration;
  ChainThreshold : time.Duration;
  nextIndex : Z;
  samples : list sample
}.

(** The state the package starts in. *)
Definition initial : globals :=
  {| OversleepThreshold := 10 * time.Microsecond;
     ChanSendThreshold := 10 * time.Microsecond;
     PingPongThreshold := 10 * time.Microsecond;
     ChainThreshold := 100 * time.Microsecond;
     nextIndex := 0;
     samples := replicate (Z.to_nat historySize) zero_sample |}.

(** Assignment to the four exported threshold variables. *)
Record thresholds : Type := mkThresholds {
  th_oversleep : time.Duration;
  th_chanSend : time.Duration;
  th_pingPong : time.Duration;
  th_chain : time.Duration
}.

Definition set_thresholds (g : globals) (t : thresholds) : globals :=
  {| OversleepThreshold := th_oversleep t;
     ChanSendThreshold := th_chanSend t;
     PingPongThreshold := th_pingPong t;
     ChainThreshold := th_chain t;
     nextIndex := nextIndex g;
     samples := samples g |}.

Definition set_history (g : globals) (next : Z) (smp : list sample)
  : globals :=
  {| OversleepThreshold := OversleepThreshold g;
     ChanSendThreshold := ChanSendThreshold g;
     PingPongThreshold := PingPongThreshold g;
     ChainThreshold := ChainThreshold g;
     nextIndex := next;
     samples := smp |}.

(** *** Arrays *)

(** Indexing the array [samples] with a Go [int]: an index out of range
    is a run-time panic, here [None]. *)
Definition index (smp : list sample) (i : Z) : option sample :=
  if (0 <=? i) && (i <? Z.of_nat (length smp))
  then smp !! Z.to_nat i
  else None.

Definition assign (smp : list sample) (i : Z) (s : sample)
  : option (list sample) :=
  if (0 <=? i) && (i <? Z.of_nat (length smp))
  then Some (<[Z.to_nat i := s]> smp)
  else None.

(** *** overThreshold *)

Definition overThreshold (g : globals) (s : sample) : bool :=
  (OversleepThreshold g <? oversleep s) ||
  (ChanSendThreshold g <? bufSend s) ||
  (PingPongThreshold g <? pingPong s) ||
  (ChainThreshold g <? chain s).

(** *** collectSample *)

(** The five clock readings of one pass: [s.start], [t1], [t2], [t3] and
    the reading after the token has come back from the chain. *)
Record readings : Type := mkReadings {
  r_start : time.Time;
  r_t1 : time.Time;
  r_t2 : time.Time;
  r_t3 : time.Time;
  r_t4 : time.Time
}.

(** The measurements of one pass (lines 125 to 141). *)
Definition measure (r : readings) : sample :=
  {| start := r_start r;
     oversleep := sub64 (time.Sub (r_t1 r) (r_start r)) testSleep;
     bufSend := time.Sub (r_t2 r) (r_t1 r);
     pingPong := time.Sub (r_t3 r) (r_t2 r);
     chain := time.Sub (r_t4 r) (r_t3 r) |}.

(** The section under [mu] (lines 143 to 147): the record operation. *)
Definition record (g : globals) (s : sample) : option globals :=
  let idx := nextIndex g in
  let next := Z.rem (add64 (nextIndex g) 1) historySize in
  smp ← assign (samples g) idx s;
  Some (set_history g next smp).

Definition collectSample (g : globals) (r : readings)
  : option (globals * sample) :=
  let s := measure r in
  g' ← record g s;
  Some (g', s).

(** *** Samples *)

Definition header : string :=
  "| " +:+
  "Sampled at | " +:+
  "Oversleep  | " +:+
  "Chan send  | " +:+
  "Ping-pong  | " +:+
  "Chain      |".

(** What the [Fprintf] of line 181 writes. *)
Definition Sprintf_row (age : spec_float)
    (a b c d : time.Duration) (hl : string) : string :=
  "| " +:+ fmt.verb_f 5 1 age +:+ "s ago | " +:+
  fmt.verb_v 10 a +:+ " | " +:+ fmt.verb_v 10 b +:+ " | " +:+
  fmt.verb_v 10 c +:+ " | " +:+ fmt.verb_v 10 d +:+ " |" +:+ hl +:+ nl.

(** The body of the loop after the [break] (lines 177 to 184). *)
Definition row (g : globals) (now : time.Time) (s : sample) : string :=
  let hl := if overThreshold g s then " <---" else "" in
  Sprintf_row (time.Seconds (time.Sub now (start s)))
    (oversleep s) (bufSend s) (pingPong s) (chain s) hl.

(** The loop of lines 168 to 185, with [n] the iterations left. *)
Fixpoint Samples_loop (g : globals) (now : time.Time)
    (n : nat) (idx : Z) (buf : string) : option string :=
  match n with
  | O => Some buf
  | S n' =>
      let idx := sub64 idx 1 in
      let idx := if idx <? 0 then historySize - 1 else idx in
      s ← index (samples g) idx;
      if time.IsZero (start s) then Some buf
      else Samples_loop g now n' idx (buf +:+ row g now s)
  end.

Definition Samples (g : globals) (now : time.Time) : option string :=
  let buf := header +:+ nl in
  Samples_loop g now (Z.to_nat historySize) (nextIndex g) buf.

(** *** The sampling loop and Check *)

(** The arguments [Warningf] is called with. *)
Inductive arg : Type :=
  | ArgInt (n : Z)
  | ArgString (s : string).

(** The interface [Warner]: anything that can log warnings. A value of
    [W] is the sink with all it has logged; [Warningf] logs one more
    message. *)
Class Warner (W : Type) : Type :=
  Warningf : W -> string -> list arg -> W.

(** A sink that keeps the calls it receives, oldest first. *)
#[export] Instance recorder : Warner (list (string * list arg)) :=
  fun w format args => w ++ [(format, args)].

Definition warning_format : string :=
  "Recent sample exceeded threshold." +:+ nl +:+
  "Last %v samples:" +:+ nl +:+ "%s".

(** The state of the loop: the package variables and its local [bad]. *)
Record loop_state : Type := mkLoop {
  pkg : globals;
  bad : bool
}.

Definition loop_start : loop_state := {| pkg := initial; bad := false |}.

(** What one iteration of the loop reacts to: a tick of the ticker,
    with the clock readings of the pass it starts; a Warner received on
    [checkChan], with the reading of the clock in [Samples]. Between
    two iterations a client may assign to the threshold variables. *)
Inductive event (W : Type) : Type :=
  | Tick (r : readings)
  | CheckReq (w : W) (now : time.Time)
  | Configure (t : thresholds).

Arguments Tick {W} r.
Arguments CheckReq {W} w now.
Arguments Configure {W} t.

Section Loop.

Context {W : Type} `{Warner W}.

(** One iteration of the [for] of [collectSampleLoop]; for a Check it
    returns the sink as the iteration leaves it. *)
Definition loop_body (st : loop_state) (e : event W)
  : option (loop_state * option W) :=
  match e with
  | Tick r =>
      '(g, s) ← collectSample (pkg st) r;
      let bad := if overThreshold g s then true else bad st in
      Some ({| pkg := g; bad := bad |}, None)
  | CheckReq w now =>
      if bad st then
        table ← Samples (pkg st) now;
        let w :=
          Warningf w warning_format
            [ArgInt historySize; ArgString table] in
        Some ({| pkg := pkg st; bad := false |}, Some w)
      else Some (st, Some w)
  | Configure t =>
      Some ({| pkg := set_thresholds (pkg st) t; bad := bad st |}, None)
  end.

(** The loop over a sequence of events, with the sinks of the Checks
    in the order they were served. *)
Fixpoint loop (st : loop_state) (evs : list (event W))
  : option (loop_state * list W) :=
  match evs with
  | [] => Some (st, [])
  | e :: evs' =>
      '(st', o) ← loop_body st e;
      '(st'', ws) ← loop st' evs';
      Some (st'', from_option (λ w, [w]) [] o ++ ws)
  end.

(** The states the loop can be in. *)
Definition reachable (st : loop_state) : Prop :=
  ∃ evs ws, loop loop_start evs = Some (st, ws).

End Loop.

(** Check(w) hands [w] to the loop: the event [CheckReq w]. *)
Definition Check {W : Type} (w : W) (now : time.Time) : event W :=
  CheckReq w now.

(** *** Notions the properties are stated with *)

(** The thresholds in force. *)
Definition thresholds_of (g : globals) : thresholds :=
  {| th_oversleep := OversleepThreshold g;
     th_chanSend := ChanSendThreshold g;
     th_pingPong := PingPongThreshold g;
     th_chain := ChainThreshold g |}.

(** A sample exceeds thresholds [t]: some field is strictly greater than
    its own threshold. *)
Definition exceeds (t : thresholds) (s : sample) : Prop :=
  th_oversleep t < oversleep s ∨ th_chanSend t < bufSend s ∨
  th_pingPong t < pingPong s ∨ th_chain t < chain s.

(** The samples recorded since the last Check of a sequence of events
    (since its beginning when it has none), oldest first, each with the
    thresholds in force when it was recorded. *)
Fixpoint since_check {W : Type} (t : thresholds) (evs : list (event W))
    (acc : list (sample * thresholds)) : list (sample * thresholds) :=
  match evs with
  | [] => acc
  | Tick r :: evs' => since_check t evs' (acc ++ [(measure r, t)])
  | CheckReq _ _ :: evs' => since_check t evs' []
  | Configure t' :: evs' => since_check t' evs' acc
  end.

(** A sequence of record operations. *)
Fixpoint record_all (g : globals) (l : list sample) : option globals :=
  match l with
  | [] => Some g
  | s :: l' => g' ← record g s; record_all g' l'
  end.

(** The invariant of the buffer: [samples] is an array of [historySize]
    slots and the cursor is an index of it. *)
Definition wf (g : globals) : Prop :=
  length (samples g) = Z.to_nat historySize ∧
  0 <= nextIndex g < historySize.

(** A slot that has been written: its [start] is not the zero time. *)
Definition started (s : sample) : bool := negb (time.IsZero (start s)).

(** The longest prefix whose elements all satisfy [p]. *)
Fixpoint take_while {A : Type} (p : A → bool) (l : list A) : list A :=
  match l with
  | [] => []
  | x :: l' => if p x then x :: take_while p l' else []
  end.

(** The slot [k] steps behind the cursor, [k = 0] being the slot
    written last. *)
Definition slot_back (g : globals) (k : nat) : sample :=
  default zero_sample
    (index (samples g) ((nextIndex g - 1 - Z.of_nat k) mod historySize)).

(** The slots in the order the loop of [Samples] visits them. *)
Definition backward (g : globals) : list sample :=
  slot_back g <$> seq 0 (Z.to_nat historySize).

(** The lines of a text, each ended by a line feed (the last one
    possibly not). *)
Fixpoint lines (s : string) : list string :=
  match s with
  | EmptyString => []
  | String c s' =>
      if Ascii.eqb c LF then EmptyString :: lines s'
      else
        match lines s' with
        | [] => [String c EmptyString]
        | l :: ls => String c l :: ls
        end
  end.

(** The data rows of a rendered table: its lines after the header. *)
Definition data_rows (table : string) : list string := tail (lines table).

(** [strings.HasSuffix] *)
Definition HasSuffix (s suffix : string) : bool :=
  (String.length suffix <=? String.length s)%nat &&
  String.eqb
    (String.substring (String.length s - String.length suffix)
       (String.length suffix) s)
    suffix.

(** A row carries the over-threshold marker. *)
Definition marked (line : string) : bool := HasSuffix line " <---".

(** The text of the row of [s], without its line feed. *)
Definition row_text (g : globals) (now : time.Time) (s : sample) : string :=
  let hl := if overThreshold g s then " <---" else "" in
  "| " +:+ fmt.verb_f 5 1 (time.Seconds (time.Sub now (start s))) +:+
  "s ago | " +:+
  fmt.verb_v 10 (oversleep s) +:+ " | " +:+ fmt.verb_v 10 (bufSend s) +:+
  " | " +:+
  fmt.verb_v 10 (pingPong s) +:+ " | " +:+ fmt.verb_v 10 (chain s) +:+
  " |" +:+ hl.

(** The texts of a list written one after the other. *)
Definition written (l : list string) : string := foldr String.append "" l.

(** The samples [Samples] renders: the slots behind the cursor, up to
    the first that was never written. *)
Definition rendered (g : globals) : list sample :=
  take_while started (backward g).

(** The buffer with no sample recorded yet, under thresholds [t]. *)
Definition empty_buffer (t : thresholds) : globals :=
  set_thresholds initial t.

(** Clock readings and samples for examples: [at_ns n] is a reading of
    [time.Now] at [n] nanoseconds after 2020-01-01 00:00:00 UTC, when
    the monotonic clock of the process started. *)
Definition at_ns (n : Z) : time.Time :=
  {| time.wall := 63713433600000000000 + n; time.mono := Some n |}.

(** A pass that starts in second [i], with the given oversleep and
    2µs, 3µs and 40µs for the other three measurements. *)
Definition pass (i : Z) (over : time.Duration) : readings :=
  let t0 := i * time.Second in
  let t1 := t0 + testSleep + over in
  {| r_start := at_ns t0; r_t1 := at_ns t1; r_t2 := at_ns (t1 + 2000);
     r_t3 := at_ns (t1 + 5000); r_t4 := at_ns (t1 + 45000) |}.

(** The samples of passes [i], [i + 1], ..., all with oversleep 5µs. *)
Definition passes (i : Z) (n : nat) : list sample :=
  (λ j : nat, measure (pass (i + Z.of_nat j) 5000)) <$> seq 0 n.

(** The state after one pass with 22µs of oversleep, which is over the
    default threshold of 10µs. *)
Definition after_slow_pass : globals :=
  default initial (record initial (measure (pass 0 22000))).

(** The state after one pass with 5µs of oversleep, under it. *)
Definition after_quick_pass : globals :=
  default initial (record initial (measure (pass 0 5000))).

(** A text without a line feed. *)
Fixpoint no_LF (s : string) : bool :=
  match s with
  | EmptyString => true
  | String c s' => negb (Ascii.eqb c LF) && no_LF s'
  end.

(** *** The chain of relay goroutines *)

(** [init] makes the channel [head] and then, [numChainRoutines] times,
    makes a channel and starts a goroutine [for { b <- <-a }] between
    the last channel and the new one; [collectSample] sends a token on
    [head] and receives it from [tail]. The goroutines and unbuffered
    channels are modelled by a transition system: a send and a receive
    on the same channel happen together, as one step. *)
Module pipeline.

(** A channel, named by the order of the calls of [make]. *)
Definition chan : Type := nat.

(** A goroutine [for { b <- <-a }]: it holds nothing and waits to
    receive from [a], or holds a value and waits to send it on [b]. *)
Record relay : Type := mkRelay {
  rin : chan;
  rout : chan;
  held : option bool
}.

(** The channels made and the goroutines started so far. *)
Record runtime : Type := mkRuntime {
  made : nat;
  started : list relay
}.

(** [make(chan bool)] *)
Definition make (rt : runtime) : chan * runtime :=
  (made rt, {| made := S (made rt); started := started rt |}).

(** [go func(a, b chan bool) { for { b <- <-a } }(a, b)] *)
Definition go_relay (a b : chan) (rt : runtime) : runtime :=
  {| made := made rt; started := started rt ++ [mkRelay a b None] |}.

(** The loop of [init] (lines 70 to 78), with [n] iterations left. *)
Fixpoint init_loop (n : nat) (tail : chan) (rt : runtime)
  : chan * runtime :=
  match n with
  | O => (tail, rt)
  | S n' =>
      let '(ch, rt) := make rt in
      let rt := go_relay tail ch rt in
      init_loop n' ch rt
  end.

(** The package variables [head] and [tail] and the goroutines, as
    [init] leaves them. *)
Record chain : Type := mkChain {
  head : chan;
  tail : chan;
  relays : list relay
}.

Definition init : chain :=
  let '(head, rt) := make {| made := 0; started := [] |} in
  let '(tail, rt) := init_loop (Z.to_nat numChainRoutines) head rt in
  {| head := head; tail := tail; relays := started rt |}.

(** What the goroutine that runs [collectSample] does from line 136
    on, as far as the chain goes: [t3 := time.Now()],
    [head <- true], [<-tail], [time.Now()]. *)
Inductive instr : Type :=
  | Now
  | Send (c : chan) (v : bool)
  | Recv (c : chan).

Definition probe (p : chain) : list instr :=
  [Now; Send (head p) true; Recv (tail p); Now].

(** A state of the system: the relay goroutines, what the sampling
    goroutine has left to do, the readings the clock will give, the
    readings taken and the values received so far. *)
Record net : Type := mkNet {
  goroutines : list relay;
  sampler : list instr;
  clock : list time.Time;
  taken : list time.Time;
  received : list bool
}.

(** What a step does: a reading of the clock, or the passing of a
    value over a channel. *)
Inductive label : Type :=
  | Read (t : time.Time)
  | Comm (c : chan) (v : bool).

Definition set_held (i : nat) (h : option bool) (rs : list relay)
  : list relay :=
  match rs !! i with
  | Some r => <[i := mkRelay (rin r) (rout r) h]> rs
  | None => rs
  end.

Definition indexed {A : Type} (l : list A) : list (nat * A) :=
  zip (seq 0 (length l)) l.

(** The steps of the sampling goroutine. *)
Definition sampler_steps (n : net) : list (label * net) :=
  match sampler n with
  | [] => []
  | Now :: rest =>
      match clock n with
      | [] => []
      | t :: cl =>
          [(Read t,
            mkNet (goroutines n) rest cl (taken n ++ [t]) (received n))]
      end
  | Send c v :: rest =>
      '(i, r) ← indexed (goroutines n);
      match held r with
      | None =>
          if (rin r =? c)%nat
          then [(Comm c v,
                 mkNet (set_held i (Some v) (goroutines n)) rest
                   (clock n) (taken n) (received n))]
          else []
      | Some _ => []
      end
  | Recv c :: rest =>
      '(i, r) ← indexed (goroutines n);
      match held r with
      | Some v =>
          if (rout r =? c)%nat
          then [(Comm c v,
                 mkNet (set_held i None (goroutines n)) rest
                   (clock n) (taken n) (received n ++ [v]))]
          else []
      | None => []
      end
  end.

(** The steps between two relay goroutines. *)
Definition relay_steps (n : net) : list (label * net) :=
  '(i, r) ← indexed (goroutines n);
  match held r with
  | None => []
  | Some v =>
      '(j, r') ← indexed (goroutines n);
      match held r' with
      | None =>
          if (rin r' =? rout r)%nat
          then [(Comm (rout r) v,
                 mkNet (set_held j (Some v) (set_held i None (goroutines n)))
                   (sampler n) (clock n) (taken n) (received n))]
          else []
      | Some _ => []
      end
  end.

Definition successors (n : net) : list (label * net) :=
  sampler_steps n ++ relay_steps n.

Definition step (n : net) (l : label) (n' : net) : Prop :=
  (l, n') ∈ successors n.

Inductive execution : net → list label → net → Prop :=
  | exec_nil n : execution n [] n
  | exec_cons n l n1 ls n2 :
      step n l n1 → execution n1 ls n2 → execution n (l :: ls) n2.

(** [k] steps, as long as each state has exactly one successor. *)
Fixpoint unique_run (k : nat) (n : net) : option (list label * net) :=
  match k with
  | O => Some ([], n)
  | S k' =>
      match successors n with
      | [(l, n1)] =>
          '(ls, n2) ← unique_run k' n1;
          Some (l :: ls, n2)
      | _ => None
      end
  end.

(** Which channels each goroutine is between. *)
Definition wiring (rs : list relay) : list (chan * chan) :=
  (λ r, (rin r, rout r)) <$> rs.

(** The trace of one pass of the probe, with clock readings [t3]
    before and [t4] after: the token passes over [head], over the
    channels between the relays, and over [tail]. *)
Definition pass_trace (p : chain) (t : time.Time * time.Time)
  : list label :=
  Read t.1 :: ((λ c, Comm c true) <$> seq (head p) (S (length (relays p))))
  ++ [Read t.2].

(** [m] passes one after the other. *)
Definition probes (p : chain) (m : nat) : list instr :=
  mjoin (replicate m (probe p)).

Definition readings_of (ts : list (time.Time * time.Time))
  : list time.Time :=
  ts ≫= λ t, [t.1; t.2].

Definition passes_trace (p : chain) (ts : list (time.Time * time.Time))
  : list label :=
  ts ≫= pass_trace p.

End pipeline.

(** *** Further notions *)

(** Every sample a sequence of events records, oldest first, each with
    the thresholds in force when it was recorded. *)
Fixpoint recorded_with {W : Type} (t : thresholds) (evs : list (event W))
  : list (sample * thresholds) :=
  match evs with
  | [] => []
  | Tick r :: evs' => (measure r, t) :: recorded_with t evs'
  | CheckReq _ _ :: evs' => recorded_with t evs'
  | Configure t' :: evs' => recorded_with t' evs'
  end.

(** The sinks the Checks of a sequence of events hand to the loop. *)
Fixpoint sinks_of {W : Type} (evs : list (event W)) : list W :=
  match evs with
  | [] => []
  | CheckReq w _ :: evs' => w :: sinks_of evs'
  | _ :: evs' => sinks_of evs'
  end.

(** Thresholds [t] are at most [t'], one by one. *)
Definition thresholds_le (t t' : thresholds) : Prop :=
  th_oversleep t <= th_oversleep t' ∧ th_chanSend t <= th_chanSend t' ∧
  th_pingPong t <= th_pingPong t' ∧ th_chain t <= th_chain t'.

(** The passes of [l] started one after the other by the monotonic
    clock: of two samples, the later one has the later reading. *)
Definition starts_in_order (l : list sample) : Prop :=
  ∀ (i j : nat) (s s' : sample),
    (i < j)%nat → l !! i = Some s → l !! j = Some s' →
    ∃ m m', time.mono (start s) = Some m ∧
            time.mono (start s') = Some m' ∧ m <= m'.

(** The ages the rows of a table show, before formatting. *)
Definition ages (g : globals) (now : time.Time) : list time.Duration :=
  (λ s, time.Sub now (start s)) <$> rendered g.

(** *** Transition systems *)

Section Runs.

Context {State Label : Type} (successors : State → list (Label * State)).

(** An execution: steps one after the other, each to a successor. *)
Inductive run : State → list Label → State → Prop :=
  | run_nil n : run n [] n
  | run_cons n l n1 ls n2 :
      (l, n1) ∈ successors n → run n1 ls n2 → run n (l :: ls) n2.

(** All the ways to run [k] steps, or until no step is possible. *)
Fixpoint all_runs (k : nat) (n : State) : list (list Label * State) :=
  match k with
  | O => [([], n)]
  | S k' =>
      match successors n with
      | [] => [([], n)]
      | succs =>
          '(l, n1) ← succs;
          (λ x : list Label * State, (l :: x.1, x.2)) <$> all_runs k' n1
      end
  end.

End Runs.

(** *** The goroutines of a whole pass *)

(** All the goroutines [init] starts and the channels of the package,
    with the buffered channel [bufc]: a send on [bufc] puts the value in
    its buffer when there is room and a receive takes the oldest value
    out; on the other channels a send and a receive happen together. *)
Module goroutines.

Inductive channel : Type :=
  | bufc
  | unbufc
  | link (c : pipeline.chan).

(** [cap(c)]: [bufc] is made with room for one value. *)
Definition capacity (c : channel) : nat :=
  match c with
  | bufc => 1
  | _ => 0
  end.

Definition channel_eqb (c c' : channel) : bool :=
  match c, c' with
  | bufc, bufc => true
  | unbufc, unbufc => true
  | link a, link b => (a =? b)%nat
  | _, _ => false
  end.

(** A goroutine [for { out <- <-in }]. *)
Record relay : Type := mkRelay {
  rin : channel;
  rout : channel;
  held : option bool
}.

(** A relay of the chain, between two channels [init] made. *)
Definition of_chain (r : pipeline.relay) : relay :=
  {| rin := link (pipeline.rin r); rout := link (pipeline.rout r);
     held := pipeline.held r |}.

(** [channelHelper]: [for { unbufc <- <-bufc }]. *)
Definition channelHelper : relay :=
  {| rin := bufc; rout := unbufc; held := None |}.

(** The goroutines [init] starts beside the sampling loop: the relays
    of the chain, then [channelHelper]. *)
Definition init : list relay :=
  (of_chain <$> pipeline.relays pipeline.init) ++ [channelHelper].

Inductive instr : Type :=
  | Now
  | Sleep (d : time.Duration)
  | Send (c : channel) (v : bool)
  | Recv (c : channel).

(** [collectSample], lines 127 to 141. *)
Definition collectSample_body : list instr :=
  [Now; Sleep testSleep; Now;
   Send bufc true; Now;
   Recv unbufc; Now;
   Send (link (pipeline.head pipeline.init)) true;
   Recv (link (pipeline.tail pipeline.init)); Now].

(** A state of the system: the goroutines, the buffer of [bufc], what
    the sampling goroutine has left to do, the readings the clock will
    give and the readings taken. *)
Record net : Type := mkNet {
  goroutines : list relay;
  queue : list bool;
  sampler : list instr;
  clock : list time.Time;
  taken : list time.Time
}.

Inductive label : Type :=
  | Read (t : time.Time)
  | Slept (d : time.Duration)
  | Put (c : channel) (v : bool)
  | Get (c : channel) (v : bool)
  | Comm (c : channel) (v : bool).

Definition set_held (i : nat) (h : option bool) (rs : list relay)
  : list relay :=
  match rs !! i with
  | Some r => <[i := mkRelay (rin r) (rout r) h]> rs
  | None => rs
  end.

(** The steps of the sampling goroutine. *)
Definition sampler_steps (n : net) : list (label * net) :=
  match sampler n with
  | [] => []
  | Now :: rest =>
      match clock n with
      | [] => []
      | t :: cl =>
          [(Read t, mkNet (goroutines n) (queue n) rest cl (taken n ++ [t]))]
      end
  | Sleep d :: rest =>
      [(Slept d, mkNet (goroutines n) (queue n) rest (clock n) (taken n))]
  | Send c v :: rest =>
      match capacity c with
      | O =>
          '(i, r) ← pipeline.indexed (goroutines n);
          match held r with
          | None =>
              if channel_eqb (rin r) c
              then [(Comm c v,
                     mkNet (set_held i (Some v) (goroutines n)) (queue n)
                       rest (clock n) (taken n))]
              else []
          | Some _ => []
          end
      | S _ =>
          if (length (queue n) <? capacity c)%nat
          then [(Put c v,
                 mkNet (goroutines n) (queue n ++ [v]) rest (clock n)
                   (taken n))]
          else []
      end
  | Recv c :: rest =>
      match capacity c with
      | O =>
          '(i, r) ← pipeline.indexed (goroutines n);
          match held r with
          | Some v =>
              if channel_eqb (rout r) c
              then [(Comm c v,
                     mkNet (set_held i None (goroutines n)) (queue n)
                       rest (clock n) (taken n))]
              else []
          | None => []
          end
      | S _ =>
          match queue n with
          | [] => []
          | v :: q =>
              [(Get c v, mkNet (goroutines n) q rest (clock n) (taken n))]
          end
      end
  end.

(** The steps of the relays: taking a value out of a buffer, putting
    the value held into a buffer, or passing it to a relay that waits
    on the same channel. *)
Definition relay_steps (n : net) : list (label * net) :=
  '(i, r) ← pipeline.indexed (goroutines n);
  match held r with
  | None =>
      match capacity (rin r), queue n with
      | S _, v :: q =>
          [(Get (rin r) v,
            mkNet (set_held i (Some v) (goroutines n)) q (sampler n)
              (clock n) (taken n))]
      | _, _ => []
      end
  | Some v =>
      match capacity (rout r) with
      | S _ =>
          if (length (queue n) <? capacity (rout r))%nat
          then [(Put (rout r) v,
                 mkNet (set_held i None (goroutines n)) (queue n ++ [v])
                   (sampler n) (clock n) (taken n))]
          else []
      | O =>
          '(j, r') ← pipeline.indexed (goroutines n);
          match held r' with
          | None =>
              if channel_eqb (rin r') (rout r)
              then [(Comm (rout r) v,
                     mkNet
                       (set_held j (Some v) (set_held i None (goroutines n)))
                       (queue n) (sampler n) (clock n) (taken n))]
              else []
          | Some _ => []
          end
      end
  end.

Definition successors (n : net) : list (label * net) :=
  sampler_steps n ++ relay_steps n.

(** The readings a pass takes, in the order it takes them. *)
Definition clock_of (r : readings) : list time.Time :=
  [r_start r; r_t1 r; r_t2 r; r_t3 r; r_t4 r].

(** The samples measured from a list of readings taken, five by five. *)
Fixpoint samples_taken (fuel : nat) (ts : list time.Time) : list sample :=
  match fuel, ts with
  | S fuel', t0 :: t1 :: t2 :: t3 :: t4 :: ts' =>
      measure (mkReadings t0 t1 t2 t3 t4) :: samples_taken fuel' ts'
  | _, _ => []
  end.

(** The system as [init] leaves it, with [m] passes to run and the
    readings [cl] to come; and the system when the passes are done. *)
Definition start (m : nat) (cl : list time.Time) : net :=
  mkNet init [] (mjoin (replicate m collectSample_body)) cl [].

Definition finish (cl : list time.Time) : net :=
  mkNet init [] [] [] cl.

(** What the token does on its way through the chain. *)
Definition through_chain : list label :=
  (λ c, Comm (link c) true)
    <$> seq (pipeline.head pipeline.init)
          (S (length (pipeline.relays pipeline.init))).

(** The two ways to run a pass: the helper takes the token out of the
    buffer of [bufc] after, or before, the reading [t2]. *)
Definition pass_trace_late (r : readings) : list label :=
  [Read (r_start r); Slept testSleep; Read (r_t1 r); Put bufc true;
   Read (r_t2 r); Get bufc true; Comm unbufc true; Read (r_t3 r)]
  ++ through_chain ++ [Read (r_t4 r)].

Definition pass_trace_early (r : readings) : list label :=
  [Read (r_start r); Slept testSleep; Read (r_t1 r); Put bufc true;
   Get bufc true; Read (r_t2 r); Comm unbufc true; Read (r_t3 r)]
  ++ through_chain ++ [Read (r_t4 r)].

End goroutines.

(** *** The earlier revision of the package *)

(** The other source file of the package is an earlier revision: other
    default thresholds, a wider first column, and a table that
    highlights one given sample instead of every sample over threshold.
    [overThreshold] and the section of [collectSample] under [mu] are the
    same in both. *)
Module rev0.

Definition initial : globals :=
  {| OversleepThreshold := 3 * time.Millisecond;
     ChanSendThreshold := 10 * time.Microsecond;
     PingPongThreshold := 20 * time.Microsecond;
     ChainThreshold := 400 * time.Microsecond;
     nextIndex := 0;
     samples := replicate (Z.to_nat historySize) zero_sample |}.

Definition header : string :=
  "| " +:+
  "Sampled at   | " +:+
  "Oversleep  | " +:+
  "Chan send  | " +:+
  "Ping-pong  | " +:+
  "Chain      |".

(** [==] on [time.Time] and on [sample]: all fields equal. *)
#[export] Instance Time_eq_dec : EqDecision time.Time.
Proof. solve_decision. Defined.

#[export] Instance sample_eq_dec : EqDecision sample.
Proof. solve_decision. Defined.

(** What the [Fprintf] of [highlightSample] writes. *)
Definition Sprintf_row (age : spec_float)
    (a b c d : time.Duration) (hls : string) : string :=
  "| " +:+ fmt.verb_f 7 1 age +:+ "s ago | " +:+
  fmt.verb_v 10 a +:+ " | " +:+ fmt.verb_v 10 b +:+ " | " +:+
  fmt.verb_v 10 c +:+ " | " +:+ fmt.verb_v 10 d +:+ " |" +:+ hls +:+ nl.

Definition row (hl : sample) (now : time.Time) (s : sample) : string :=
  let hls := if bool_decide (s = hl) then " <---" else "" in
  Sprintf_row (time.Seconds (time.Sub now (start s)))
    (oversleep s) (bufSend s) (pingPong s) (chain s) hls.

(** The loop of [highlightSample], with [n] the iterations left. *)
Fixpoint highlightSample_loop (g : globals) (hl : sample) (now : time.Time)
    (n : nat) (idx : Z) (buf : string) : option string :=
  match n with
  | O => Some buf
  | S n' =>
      let idx := sub64 idx 1 in
      let idx := if idx <? 0 then historySize - 1 else idx in
      s ← index (samples g) idx;
      if time.IsZero (start s) then Some buf
      else highlightSample_loop g hl now n' idx (buf +:+ row hl now s)
  end.

Definition highlightSample (g : globals) (hl : sample) (now : time.Time)
  : option string :=
  let buf := header +:+ nl in
  highlightSample_loop g hl now (Z.to_nat historySize) (nextIndex g) buf.

(** [Samples] highlights the zero value [sample{}]. *)
Definition Samples (g : globals) (now : time.Time) : option string :=
  highlightSample g zero_sample now.

(** The state of the loop: the package variables and its local [bad],
    a pointer to the last sample over threshold, or nil. *)
Record loop_state : Type := mkLoop {
  pkg : globals;
  bad : option sample
}.

Definition loop_start : loop_state := {| pkg := initial; bad := None |}.

Section Loop.

Context {W : Type} `{Warner W}.

Definition loop_body (st : loop_state) (e : event W)
  : option (loop_state * option W) :=
  match e with
  | Tick r =>
      '(g, s) ← collectSample (pkg st) r;
      let bad := if overThreshold g s then Some s else bad st in
      Some ({| pkg := g; bad := bad |}, None)
  | CheckReq w now =>
      match bad st with
      | Some b =>
          table ← highlightSample (pkg st) b now;
          let w :=
            Warningf w warning_format
              [ArgInt historySize; ArgString table] in
          Some ({| pkg := pkg st; bad := None |}, Some w)
      | None => Some (st, Some w)
      end
  | Configure t =>
      Some ({| pkg := set_thresholds (pkg st) t; bad := bad st |}, None)
  end.

Fixpoint loop (st : loop_state) (evs : list (event W))
  : option (loop_state * list W) :=
  match evs with
  | [] => Some (st, [])
  | e :: evs' =>
      '(st', o) ← loop_body st e;
      '(st'', ws) ← loop st' evs';
      Some (st'', from_option (λ w, [w]) [] o ++ ws)
  end.

End Loop.

(** The text of the row of [s], without its line feed. *)
Definition row_text (hl : sample) (now : time.Time) (s : sample) : string :=
  let hls := if bool_decide (s = hl) then " <---" else "" in
  "| " +:+ fmt.verb_f 7 1 (time.Seconds (time.Sub now (start s))) +:+
  "s ago | " +:+
  fmt.verb_v 10 (oversleep s) +:+ " | " +:+ fmt.verb_v 10 (bufSend s) +:+
  " | " +:+
  fmt.verb_v 10 (pingPong s) +:+ " | " +:+ fmt.verb_v 10 (chain s) +:+
  " |" +:+ hls.

End rev0.

(** The last sample of a list that exceeded the thresholds it is paired
    with, if there is one. *)
Definition exceedsb (t : thresholds) (s : sample) : bool :=
  (th_oversleep t <? oversleep s) || (th_chanSend t <? bufSend s) ||
  (th_pingPong t <? pingPong s) || (th_chain t <? chain s).

Fixpoint last_exceeding (l : list (sample * thresholds)) (acc : option sample)
  : option sample :=
  match l with
  | [] => acc
  | (s, t) :: l' => last_exceeding l' (if exceedsb t s then Some s else acc)
  end.




(** *** The chain of the earlier revision *)

(** In the earlier revision [collectSample] itself makes the channels
    and starts the 20 goroutines of the chain, at every pass, and each
    goroutine passes one value on, [b <- <-a], and ends. *)
Module rev0chain.

(** [make] gives a channel that none of the goroutines alive refers
    to. *)
Definition fresh (live : list pipeline.relay) : pipeline.chan :=
  foldr (λ r k, Nat.max (S (pipeline.rin r)) (Nat.max (S (pipeline.rout r)) k))
    0%nat live.

Inductive instr : Type :=
  | Now
  | Build
  | SendHead (v : bool)
  | RecvTail
  | Return.

(** [collectSample] from [t3 := time.Now()] on: the chain is built, the
    token sent on [head] and received from [tail], the clock read, and
    the function returns. *)
Definition probe : list instr :=
  [Now; Build; SendHead true; RecvTail; Now; Return].

(** A state: the goroutines of the chain alive, the variables [head]
    and [tail] of the call of [collectSample] under way, what the
    sampling goroutine has left to do, the readings the clock will give
    and the readings taken. *)
Record net : Type := mkNet {
  live : list pipeline.relay;
  ends : option (pipeline.chan * pipeline.chan);
  sampler : list instr;
  clock : list time.Time;
  taken : list time.Time
}.

Inductive label : Type :=
  | Read (t : time.Time)
  | Built (started : nat)
  | Comm (c : pipeline.chan) (v : bool)
  | Returned.

(** The steps of the sampling goroutine. *)
Definition sampler_steps (n : net) : list (label * net) :=
  match sampler n with
  | [] => []
  | Now :: rest =>
      match clock n with
      | [] => []
      | t :: cl =>
          [(Read t, mkNet (live n) (ends n) rest cl (taken n ++ [t]))]
      end
  | Build :: rest =>
      let '(head, rt) :=
        pipeline.make
          {| pipeline.made := fresh (live n);
             pipeline.started := live n |} in
      let '(tail, rt) :=
        pipeline.init_loop (Z.to_nat numChainRoutines) head rt in
      [(Built (length (pipeline.started rt) - length (live n)),
        mkNet (pipeline.started rt) (Some (head, tail)) rest (clock n)
          (taken n))]
  | SendHead v :: rest =>
      match ends n with
      | None => []
      | Some (head, _) =>
          '(i, r) ← pipeline.indexed (live n);
          match pipeline.held r with
          | None =>
              if (pipeline.rin r =? head)%nat
              then [(Comm head v,
                     mkNet (pipeline.set_held i (Some v) (live n)) (ends n)
                       rest (clock n) (taken n))]
              else []
          | Some _ => []
          end
      end
  | RecvTail :: rest =>
      match ends n with
      | None => []
      | Some (_, tail) =>
          '(i, r) ← pipeline.indexed (live n);
          match pipeline.held r with
          | Some v =>
              if (pipeline.rout r =? tail)%nat
              then [(Comm tail v,
                     mkNet (delete i (live n)) (ends n) rest (clock n)
                       (taken n))]
              else []
          | None => []
          end
      end
  | Return :: rest =>
      [(Returned, mkNet (live n) None rest (clock n) (taken n))]
  end.

(** The steps between two goroutines of the chain: the one that sends
    has done its work and ends. *)
Definition relay_steps (n : net) : list (label * net) :=
  '(i, r) ← pipeline.indexed (live n);
  match pipeline.held r with
  | None => []
  | Some v =>
      '(j, r') ← pipeline.indexed (live n);
      match pipeline.held r' with
      | None =>
          if (pipeline.rin r' =? pipeline.rout r)%nat
          then [(Comm (pipeline.rout r) v,
                 mkNet (delete i (pipeline.set_held j (Some v) (live n)))
                   (ends n) (sampler n) (clock n) (taken n))]
          else []
      | Some _ => []
      end
  end.

Definition successors (n : net) : list (label * net) :=
  sampler_steps n ++ relay_steps n.

(** The one way to run a pass, with clock readings [t.1] and [t.2]. *)
Definition pass_trace (t : time.Time * time.Time) : list label :=
  [Read t.1; Built (Z.to_nat numChainRoutines)]
  ++ ((λ c, Comm c true) <$> seq 0 (S (Z.to_nat numChainRoutines)))
  ++ [Read t.2; Returned].

(** The system between two passes, with [m] passes to run, the readings
    [cl] to come and the readings [tk] taken. *)
Definition between (m : nat) (cl tk : list time.Time) : net :=
  mkNet [] None (mjoin (replicate m probe)) cl tk.

End rev0chain.

(** * Properties *)

(** ** The embedding on concrete inputs *)

Example Duration_String_examples :
  time.String_ 0 = "0s" ∧
  time.String_ 1 = "1ns" ∧
  time.String_ 1500 = "1.5µs" ∧
  time.String_ 10000 = "10µs" ∧
  time.String_ 50000000 = "50ms" ∧
  time.String_ (-2500000) = "-2.5ms" ∧
  time.String_ 1000000000 = "1s" ∧
  time.String_ 3723500000000 = "1h2m3.5s" ∧
  time.String_ maxInt64 = "2562047h47m16.854775807s" ∧
  time.String_ minInt64 = "-2562047h47m16.854775808s".
Proof. repeat split; reflexivity. Qed.

Example verb_f_examples :
  fmt.verb_f 5 1 (time.Seconds 0) = "  0.0" ∧
  fmt.verb_f 5 1 (time.Seconds 1500000000) = "  1.5" ∧
  fmt.verb_f 5 1 (time.Seconds 250000000) = "  0.2" ∧
  fmt.verb_f 5 1 (time.Seconds 350000000) = "  0.3" ∧
  fmt.verb_f 5 1 (time.Seconds 99960000000) = "100.0" ∧
  fmt.verb_f 5 1 (time.Seconds (-1)) = " -0.0" ∧
  fmt.verb_f 5 1 (time.Seconds 123456789012345) = "123456.8".
Proof. repeat split; reflexivity. Qed.

(** Three passes, the second one slow, and a table a second after the
    last pass started. *)
Example Samples_three_passes :
  (g ← record_all initial
         [measure (pass 0 5000); measure (pass 1 22000);
          measure (pass 2 3000)];
   Samples g (at_ns (3 * time.Second)))
  = Some
      ("| Sampled at | Oversleep  | Chan send  | Ping-pong  | Chain      |"
       +:+ nl +:+
       "|   1.0s ago |        3µs |        2µs |        3µs |       40µs |"
       +:+ nl +:+
       "|   2.0s ago |       22µs |        2µs |        3µs |       40µs | <---"
       +:+ nl +:+
       "|   3.0s ago |        5µs |        2µs |        3µs |       40µs |"
       +:+ nl).
Proof. by vm_compute. Qed.

(** A tick with a slow pass, a Check and a second Check, on a recording
    sink: the first Check logs one message, the second none. *)
Example loop_slow_pass_two_checks :
  ∃ (st : loop_state) (first second : list (string * list arg)),
    loop loop_start
      [Tick (pass 0 22000); Check [] (at_ns (1 * time.Second));
       Check [] (at_ns (2 * time.Second))]
    = Some (st, [first; second]) ∧
    bad st = false ∧ length first = 1%nat ∧ length second = 0%nat.
Proof. by eexists _, _, _; vm_compute. Qed.

(** ** Machine integers *)

Lemma wrap64_id z : in_int64 z → wrap64 z = z.
Proof.
  unfold in_int64, minInt64, maxInt64, wrap64. intros Hz.
  rewrite Z.mod_small; lia.
Qed.

Lemma add64_small a b : in_int64 (a + b) → add64 a b = a + b.
Proof. apply wrap64_id. Qed.

Lemma sub64_small a b : in_int64 (a - b) → sub64 a b = a - b.
Proof. apply wrap64_id. Qed.

Lemma in_int64_index i : 0 <= i <= historySize → in_int64 i.
Proof. unfold historySize, in_int64, minInt64, maxInt64. lia. Qed.

(** ** overThreshold *)

Lemma overThreshold_exceeds g s :
  overThreshold g s = true ↔ exceeds (thresholds_of g) s.
Proof.
  unfold overThreshold, exceeds, thresholds_of; simpl.
  rewrite !orb_true_iff, !Z.ltb_lt. tauto.
Qed.

Lemma overThreshold_not_exceeds g s :
  overThreshold g s = false ↔ ¬ exceeds (thresholds_of g) s.
Proof.
  rewrite <- overThreshold_exceeds.
  destruct (overThreshold g s); naive_solver.
Qed.

(** C4. For every sample and every setting of the four threshold
    variables, [overThreshold] holds exactly when [oversleep] is greater
    than [OversleepThreshold], or [bufSend] than [ChanSendThreshold], or
    [pingPong] than [PingPongThreshold], or [chain] than
    [ChainThreshold]: each field against its own threshold, strictly, so
    that a sample whose every field is at most (in particular equal to)
    its threshold is not over threshold. *)
Theorem overThreshold_strict_per_field :
  ∀ (g : globals) (s : sample),
    (overThreshold g s = true ↔
       oversleep s > OversleepThreshold g ∨
       bufSend s > ChanSendThreshold g ∨
       pingPong s > PingPongThreshold g ∨
       chain s > ChainThreshold g) ∧
    (overThreshold g s = false ↔
       oversleep s <= OversleepThreshold g ∧
       bufSend s <= ChanSendThreshold g ∧
       pingPong s <= PingPongThreshold g ∧
       chain s <= ChainThreshold g).
Proof.
  intros g s. unfold overThreshold. split.
  - rewrite !orb_true_iff, !Z.ltb_lt. lia.
  - rewrite !orb_false_iff, !Z.ltb_ge. lia.
Qed.

(** ** The array of samples *)

Lemma index_Some smp i :
  0 <= i < Z.of_nat (length smp) → index smp i = smp !! Z.to_nat i.
Proof.
  intros Hi. unfold index.
  destruct (Z.leb_spec 0 i); [|lia].
  destruct (Z.ltb_spec i (Z.of_nat (length smp))); [done|lia].
Qed.

Lemma index_is_Some smp i :
  0 <= i < Z.of_nat (length smp) → is_Some (index smp i).
Proof.
  intros Hi. rewrite index_Some by done. apply lookup_lt_is_Some. lia.
Qed.

Lemma assign_Some smp i s :
  0 <= i < Z.of_nat (length smp) →
  assign smp i s = Some (<[Z.to_nat i := s]> smp).
Proof.
  intros Hi. unfold assign.
  destruct (Z.leb_spec 0 i); [|lia].
  destruct (Z.ltb_spec i (Z.of_nat (length smp))); [done|lia].
Qed.

Lemma index_insert_eq smp i s :
  0 <= i < Z.of_nat (length smp) →
  index (<[Z.to_nat i := s]> smp) i = Some s.
Proof.
  intros Hi. rewrite index_Some by (rewrite length_insert; lia).
  apply list_lookup_insert_eq. lia.
Qed.

Lemma index_insert_ne smp i j s :
  0 <= i → i ≠ j → index (<[Z.to_nat i := s]> smp) j = index smp j.
Proof.
  intros Hi Hij. unfold index. rewrite length_insert.
  destruct (Z.leb_spec 0 j); [|done].
  destruct (Z.ltb_spec j (Z.of_nat (length smp))); [|done].
  simpl. apply list_lookup_insert_ne. lia.
Qed.

(** ** The record operation *)

Lemma wf_initial : wf initial.
Proof. split; [reflexivity | unfold historySize; simpl; lia]. Qed.

Lemma wf_length g : wf g → Z.of_nat (length (samples g)) = historySize.
Proof. intros [Hl _]. rewrite Hl. unfold historySize. lia. Qed.

Lemma wf_set_thresholds g t : wf g → wf (set_thresholds g t).
Proof. intros Hg. exact Hg. Qed.

Lemma next_cursor i :
  0 <= i < historySize →
  Z.rem (add64 i 1) historySize = (i + 1) mod historySize.
Proof.
  intros Hi. rewrite add64_small by (apply in_int64_index; lia).
  apply Z.rem_mod_nonneg; unfold historySize in *; lia.
Qed.

Lemma record_wf g s :
  wf g →
  record g s =
    Some (set_history g ((nextIndex g + 1) mod historySize)
            (<[Z.to_nat (nextIndex g) := s]> (samples g))).
Proof.
  intros Hg. pose proof (wf_length g Hg) as Hl. destruct Hg as [_ Hc].
  unfold record. rewrite assign_Some by lia. simpl.
  by rewrite next_cursor.
Qed.

Lemma record_preserves_wf g s g' : wf g → record g s = Some g' → wf g'.
Proof.
  intros Hg. rewrite record_wf by done. intros [= <-].
  destruct Hg as [Hl Hc]. split; simpl.
  - by rewrite length_insert.
  - apply Z.mod_pos_bound. unfold historySize. lia.
Qed.

(** C8. The record operation, from every buffer state that satisfies the
    invariant (an array of 100 slots, the cursor an index of it), and
    for every sample: does not fail; writes the sample into the slot at
    the cursor; advances the cursor by one modulo 100; leaves every
    other slot, and the thresholds, unchanged; and re-establishes the
    invariant. The initial state satisfies the invariant, so the cursor
    stays in the range 0 to 99. *)
Theorem record_writes_at_cursor_and_advances :
  wf initial ∧
  ∀ (g : globals) (s : sample),
    wf g →
    ∃ g' : globals,
      record g s = Some g' ∧
      index (samples g') (nextIndex g) = Some s ∧
      nextIndex g' = (nextIndex g + 1) mod historySize ∧
      (∀ j : Z, j ≠ nextIndex g →
         index (samples g') j = index (samples g) j) ∧
      thresholds_of g' = thresholds_of g ∧
      wf g' ∧ 0 <= nextIndex g' < 100.
Proof.
  split; [exact wf_initial|].
  intros g s Hg. eexists. split; [by apply record_wf|].
  pose proof (wf_length g Hg) as Hl.
  assert (wf (set_history g ((nextIndex g + 1) mod historySize)
            (<[Z.to_nat (nextIndex g) := s]> (samples g)))) as Hg'.
  { eapply record_preserves_wf; [exact Hg|]. by apply record_wf. }
  destruct Hg as [_ Hc]. simpl.
  split; [apply index_insert_eq; lia|].
  split; [done|].
  split; [intros j Hj; apply index_insert_ne; lia|].
  split; [done|].
  split; [exact Hg'|]. apply Hg'.
Qed.

(** In the initial state the record operation writes slot 0 and moves
    the cursor to 1. *)
Lemma record_writes_at_cursor_and_advances_witness :
  wf initial ∧
  ∃ g' : globals,
    record initial (measure (pass 0 5000)) = Some g' ∧
    index (samples g') (nextIndex initial) = Some (measure (pass 0 5000)) ∧
    nextIndex g' = (nextIndex initial + 1) mod historySize ∧
    (∀ j : Z, j ≠ nextIndex initial →
       index (samples g') j = index (samples initial) j) ∧
    thresholds_of g' = thresholds_of initial ∧
    wf g' ∧ 0 <= nextIndex g' < 100.
Proof.
  assert (wf initial) as Hg by (split; [reflexivity | by vm_compute]).
  split; [exact Hg|].
  exact (proj2 record_writes_at_cursor_and_advances initial
           (measure (pass 0 5000)) Hg).
Defined.

(** ** Strings *)

Lemma append_cons (x : ascii) (a b : string) :
  String x a +:+ b = String x (a +:+ b).
Proof. reflexivity. Qed.

Lemma append_assoc (a b c : string) : (a +:+ b) +:+ c = a +:+ (b +:+ c).
Proof.
  induction a as [|x a IH]; [done|]. by rewrite !append_cons, IH.
Qed.

Lemma append_nil_r (a : string) : a +:+ "" = a.
Proof.
  induction a as [|x a IH]; [done|]. by rewrite append_cons, IH.
Qed.

Lemma written_app l1 l2 : written (l1 ++ l2) = written l1 +:+ written l2.
Proof.
  induction l1 as [|x l1 IH]; [done|].
  change (x +:+ written (l1 ++ l2) = (x +:+ written l1) +:+ written l2).
  by rewrite IH, append_assoc.
Qed.

(** ** The loop of Samples *)

Lemma step_back idx :
  0 <= idx < historySize →
  (let i := sub64 idx 1 in if i <? 0 then historySize - 1 else i)
  = (idx - 1) mod historySize.
Proof.
  intros Hi. cbv zeta.
  rewrite sub64_small
    by (unfold in_int64, minInt64, maxInt64, historySize in *; lia).
  unfold historySize in *.
  destruct (Z.ltb_spec (idx - 1) 0).
  - assert (idx = 0) as -> by lia. reflexivity.
  - rewrite Z.mod_small; lia.
Qed.

Lemma slot_back_index g k :
  wf g →
  index (samples g) ((nextIndex g - 1 - Z.of_nat k) mod historySize)
  = Some (slot_back g k).
Proof.
  intros Hg. unfold slot_back.
  destruct (index_is_Some (samples g)
              ((nextIndex g - 1 - Z.of_nat k) mod historySize)) as [s ->];
    [|done].
  rewrite (wf_length g Hg). apply Z.mod_pos_bound. unfold historySize. lia.
Qed.

Lemma Samples_loop_spec g now :
  wf g →
  ∀ (n k : nat) (buf : string),
    Samples_loop g now n ((nextIndex g - Z.of_nat k) mod historySize) buf
    = Some (buf +:+
        written (row g now <$> take_while started (slot_back g <$> seq k n))).
Proof.
  intros Hg. induction n as [|n IH]; intros k buf.
  - simpl. by rewrite append_nil_r.
  - cbn [Samples_loop].
    rewrite step_back by (apply Z.mod_pos_bound; unfold historySize; lia).
    rewrite Zminus_mod_idemp_l.
    replace (nextIndex g - Z.of_nat k - 1)
      with (nextIndex g - 1 - Z.of_nat k) by lia.
    rewrite slot_back_index by done. simpl.
    unfold started at 1.
    destruct (time.IsZero (start (slot_back g k))); simpl.
    + by rewrite append_nil_r.
    + replace (nextIndex g - 1 - Z.of_nat k)
        with (nextIndex g - Z.of_nat (S k)) by lia.
      rewrite IH. by rewrite append_assoc.
Qed.

(** On a buffer that satisfies the invariant, [Samples] returns, and
    what it returns is the header line followed by the rows of the
    rendered samples. *)
Lemma Samples_spec g now :
  wf g →
  Samples g now =
    Some (header +:+ nl +:+ written (row g now <$> rendered g)).
Proof.
  intros Hg. unfold Samples.
  pose proof (Samples_loop_spec g now Hg (Z.to_nat historySize) 0) as Hs.
  replace (nextIndex g - Z.of_nat 0) with (nextIndex g) in Hs by lia.
  rewrite Z.mod_small in Hs by apply Hg.
  rewrite Hs. by rewrite append_assoc.
Qed.

(** ** The texts the formats write hold no line feed *)

Lemma no_LF_app a b : no_LF (a +:+ b) = no_LF a && no_LF b.
Proof.
  induction a as [|x a IH]; [done|].
  rewrite append_cons. simpl. by rewrite IH, andb_assoc.
Qed.

Lemma no_LF_cons c s : no_LF (String c s) = negb (Ascii.eqb c LF) && no_LF s.
Proof. reflexivity. Qed.

Lemma digit_no_LF d : 0 <= d < 10 → Ascii.eqb (time.digit d) LF = false.
Proof.
  intros Hd.
  assert (d = 0 ∨ d = 1 ∨ d = 2 ∨ d = 3 ∨ d = 4 ∨ d = 5 ∨ d = 6 ∨ d = 7 ∨
          d = 8 ∨ d = 9) as Hc by lia.
  repeat (destruct Hc as [-> | Hc]; [reflexivity|]). by subst.
Qed.

Lemma digit_mod_no_LF v : Ascii.eqb (time.digit (v mod 10)) LF = false.
Proof. apply digit_no_LF, Z.mod_pos_bound. lia. Qed.

Lemma fmtInt_loop_no_LF fuel :
  ∀ buf v, no_LF buf = true → no_LF (time.fmtInt_loop fuel buf v) = true.
Proof.
  induction fuel as [|fuel IH]; intros buf v Hb; simpl; [done|].
  destruct (0 <? v); [|done].
  apply IH. by rewrite no_LF_cons, digit_mod_no_LF.
Qed.

Lemma fmtInt_no_LF buf v : no_LF buf = true → no_LF (time.fmtInt buf v) = true.
Proof.
  intros Hb. unfold time.fmtInt. destruct (v =? 0).
  - by rewrite no_LF_cons.
  - by apply fmtInt_loop_no_LF.
Qed.

Lemma fmtFrac_loop_no_LF prec :
  ∀ buf print v,
    no_LF buf = true →
    no_LF (time.fmtFrac_loop prec buf print v).1.1 = true.
Proof.
  induction prec as [|prec IH]; intros buf print v Hb; simpl; [done|].
  apply IH. destruct (print || negb (v mod 10 =? 0)); [|done].
  by rewrite no_LF_cons, digit_mod_no_LF.
Qed.

Lemma fmtFrac_no_LF buf v prec :
  no_LF buf = true → no_LF (time.fmtFrac buf v prec).1 = true.
Proof.
  intros Hb. unfold time.fmtFrac.
  pose proof (fmtFrac_loop_no_LF prec buf false v Hb) as Hl.
  destruct (time.fmtFrac_loop prec buf false v) as [[b p] u]. simpl in *.
  destruct p; [by rewrite no_LF_cons | done].
Qed.

Lemma sign_no_LF (neg : bool) buf :
  no_LF buf = true → no_LF (if neg then String "-" buf else buf) = true.
Proof. intros Hb. destruct neg; [by rewrite no_LF_cons | done]. Qed.

Lemma Duration_String_no_LF d : no_LF (time.String_ d) = true.
Proof.
  unfold time.String_. cbv zeta.
  set (u := if d <? 0 then (- (d mod 2 ^ 64)) mod 2 ^ 64 else d mod 2 ^ 64).
  destruct (u <? time.Second).
  - destruct (u =? 0); [done|].
    destruct (u <? time.Microsecond); [|destruct (u <? time.Millisecond)].
    + pose proof (fmtFrac_no_LF "ns" u 0 eq_refl) as Hf.
      destruct (time.fmtFrac "ns" u 0) as [b u'].
      by apply sign_no_LF, fmtInt_no_LF.
    + pose proof (fmtFrac_no_LF (time.micro "s") u 3 eq_refl) as Hf.
      destruct (time.fmtFrac (time.micro "s") u 3) as [b u'].
      by apply sign_no_LF, fmtInt_no_LF.
    + pose proof (fmtFrac_no_LF "ms" u 6 eq_refl) as Hf.
      destruct (time.fmtFrac "ms" u 6) as [b u'].
      by apply sign_no_LF, fmtInt_no_LF.
  - pose proof (fmtFrac_no_LF "s" u 9 eq_refl) as Hf.
    destruct (time.fmtFrac "s" u 9) as [b u']. simpl in Hf.
    apply sign_no_LF.
    assert (no_LF (time.fmtInt b (u' mod 60)) = true) as Hs
      by by apply fmtInt_no_LF.
    destruct (0 <? u' / 60); [|done].
    assert (no_LF (time.fmtInt (String "m" (time.fmtInt b (u' mod 60)))
                     (u' / 60 mod 60)) = true) as Hm
      by (apply fmtInt_no_LF; by rewrite no_LF_cons).
    destruct (0 <? u' / 60 / 60); [|done].
    apply fmtInt_no_LF. by rewrite no_LF_cons.
Qed.

Lemma spaces_no_LF n : no_LF (fmt.spaces n) = true.
Proof. induction n as [|n IH]; [done|]. simpl. exact IH. Qed.

Lemma pad_no_LF wid s : no_LF s = true → no_LF (fmt.pad wid s) = true.
Proof.
  intros Hs. unfold fmt.pad. by rewrite no_LF_app, spaces_no_LF, Hs.
Qed.

Lemma fixed_digits_no_LF n :
  ∀ buf v, no_LF buf = true → no_LF (fmt.fixed_digits n buf v) = true.
Proof.
  induction n as [|n IH]; intros buf v Hb; simpl; [done|].
  apply IH. by rewrite no_LF_cons, digit_mod_no_LF.
Qed.

Lemma decimal_f_no_LF m e prec : no_LF (fmt.decimal_f m e prec) = true.
Proof.
  unfold fmt.decimal_f. cbv zeta.
  set (q := fmt.round_scaled m e prec).
  assert (no_LF
            match prec with
            | O => ""
            | S _ =>
                String "."
                  (fmt.fixed_digits prec "" (q mod 10 ^ Z.of_nat prec))
            end = true) as Hf.
  { destruct prec; [done|]. rewrite no_LF_cons. simpl negb.
    by apply fixed_digits_no_LF. }
  destruct (q / 10 ^ Z.of_nat prec =? 0).
  - by rewrite no_LF_cons.
  - by apply fmtInt_loop_no_LF.
Qed.

Lemma verb_f_no_LF wid prec v : no_LF (fmt.verb_f wid prec v) = true.
Proof.
  unfold fmt.verb_f. apply pad_no_LF.
  destruct v as [s|s| |s m e].
  - rewrite no_LF_app, decimal_f_no_LF. by destruct s.
  - by destruct s.
  - done.
  - rewrite no_LF_app, decimal_f_no_LF. by destruct s.
Qed.

Lemma verb_v_no_LF wid d : no_LF (fmt.verb_v wid d) = true.
Proof. apply pad_no_LF, Duration_String_no_LF. Qed.

Lemma row_text_no_LF g now s : no_LF (row_text g now s) = true.
Proof.
  unfold row_text. cbv zeta.
  rewrite !no_LF_app, verb_f_no_LF, !verb_v_no_LF.
  by destruct (overThreshold g s).
Qed.

Lemma row_row_text g now s : row g now s = row_text g now s +:+ nl.
Proof.
  unfold row, row_text, Sprintf_row. cbv zeta.
  by rewrite !append_assoc.
Qed.

(** ** The lines of a table *)

Lemma lines_line l rest :
  no_LF l = true → lines (l +:+ nl +:+ rest) = l :: lines rest.
Proof.
  induction l as [|c l IH]; intros Hl; [done|].
  rewrite no_LF_cons in Hl. apply andb_prop in Hl as [Hc Hl].
  rewrite append_cons. simpl.
  destruct (Ascii.eqb c LF); [done|]. by rewrite (IH Hl).
Qed.

Lemma lines_rows g now ss :
  lines (written (row g now <$> ss)) = row_text g now <$> ss.
Proof.
  induction ss as [|s ss IH]; [done|].
  change (lines (row g now s +:+ written (row g now <$> ss))
          = row_text g now s :: (row_text g now <$> ss)).
  rewrite row_row_text, append_assoc, lines_line by apply row_text_no_LF.
  by rewrite IH.
Qed.

(** The lines of the table [Samples] returns: the header, then one line
    for each rendered sample. *)
Lemma Samples_lines g now :
  wf g →
  ∃ table,
    Samples g now = Some table ∧
    lines table = header :: (row_text g now <$> rendered g).
Proof.
  intros Hg. eexists. split; [by apply Samples_spec|].
  rewrite lines_line by reflexivity. by rewrite lines_rows.
Qed.

Lemma Samples_data_rows g now table :
  wf g →
  Samples g now = Some table →
  data_rows table = row_text g now <$> rendered g.
Proof.
  intros Hg Ht. destruct (Samples_lines g now Hg) as (table' & Ht' & Hl).
  rewrite Ht in Ht'. injection Ht' as <-. unfold data_rows. by rewrite Hl.
Qed.

(** ** Suffixes and the marker *)

Lemma length_append a b :
  String.length (a +:+ b) = (String.length a + String.length b)%nat.
Proof.
  induction a as [|x a IH]; [done|]. rewrite append_cons. simpl.
  by rewrite IH.
Qed.

Lemma substring_all b : String.substring 0 (String.length b) b = b.
Proof. induction b as [|x b IH]; [done|]. simpl. by rewrite IH. Qed.

Lemma substring_append_r a b :
  String.substring (String.length a) (String.length b) (a +:+ b) = b.
Proof.
  induction a as [|x a IH]; [apply substring_all|].
  rewrite append_cons. simpl. exact IH.
Qed.

Lemma substring_split s :
  ∀ n m, (n + m)%nat = String.length s →
    ∃ p, s = p +:+ String.substring n m s.
Proof.
  induction s as [|c s IH]; intros n m Hnm.
  - exists "". simpl in Hnm. by destruct n, m.
  - destruct n as [|n].
    + exists "". rewrite Nat.add_0_l in Hnm. subst m.
      by rewrite (substring_all (String c s)).
    + destruct (IH n m) as [p Hp]; [simpl in Hnm; lia|].
      exists (String c p). rewrite append_cons. simpl. by rewrite <- Hp.
Qed.

Lemma HasSuffix_append a b : HasSuffix (a +:+ b) b = true.
Proof.
  unfold HasSuffix. rewrite length_append.
  replace (String.length a + String.length b - String.length b)%nat
    with (String.length a) by lia.
  rewrite substring_append_r, String.eqb_refl, andb_true_r.
  apply Nat.leb_le. lia.
Qed.

Lemma HasSuffix_inv s suffix :
  HasSuffix s suffix = true → ∃ p, s = p +:+ suffix.
Proof.
  unfold HasSuffix. intros [Hl He]%andb_prop.
  apply Nat.leb_le in Hl. apply String.eqb_eq in He.
  destruct (substring_split s (String.length s - String.length suffix)
              (String.length suffix)) as [p Hp]; [lia|].
  exists p. by rewrite He in Hp.
Qed.

Lemma list_ascii_append a b :
  String.list_ascii_of_string (a +:+ b)
  = String.list_ascii_of_string a ++ String.list_ascii_of_string b.
Proof.
  induction a as [|x a IH]; [done|]. rewrite append_cons. simpl.
  by rewrite IH.
Qed.

(** A line that ends with the closing bar of the last column does not
    end with the marker. *)
Lemma HasSuffix_bar a : HasSuffix (a +:+ " |") " <---" = false.
Proof.
  destruct (HasSuffix (a +:+ " |") " <---") eqn:Hs; [|done].
  apply HasSuffix_inv in Hs as [p Hp].
  apply (f_equal String.list_ascii_of_string) in Hp.
  rewrite !list_ascii_append in Hp.
  change (String.list_ascii_of_string " <---")
    with (String.list_ascii_of_string " <-"
          ++ String.list_ascii_of_string "--") in Hp.
  rewrite (assoc_L (++)) in Hp.
  apply app_inj_2 in Hp as [_ Hp]; [discriminate | reflexivity].
Qed.

(** The row of a sample carries the marker exactly when the sample is
    over threshold. *)
Lemma marked_row_text g now s :
  marked (row_text g now s) = overThreshold g s.
Proof.
  unfold marked, row_text. cbv zeta.
  destruct (overThreshold g s).
  - rewrite <- !append_assoc. apply HasSuffix_append.
  - rewrite append_nil_r, <- !append_assoc. apply HasSuffix_bar.
Qed.

(** ** The buffer after a sequence of record operations *)

Lemma take_while_length {A} (p : A → bool) l :
  (length (take_while p l) ≤ length l)%nat.
Proof.
  induction l as [|x l IH]; simpl; [done|]. destruct (p x); simpl; lia.
Qed.

Lemma take_while_all {A} (p : A → bool) l :
  Forall (λ x, p x = true) l → take_while p l = l.
Proof.
  induction 1 as [|x l Hx _ IH]; simpl; [done|]. by rewrite Hx, IH.
Qed.

Lemma take_while_app_stop {A} (p : A → bool) l x k :
  p x = false → take_while p (l ++ x :: k) = take_while p l.
Proof.
  intros Hx. induction l as [|y l IH]; simpl; [by rewrite Hx|].
  by rewrite IH.
Qed.

Lemma wf_empty t : wf (empty_buffer t).
Proof. apply wf_set_thresholds, wf_initial. Qed.

Lemma slot_back_empty t k : slot_back (empty_buffer t) k = zero_sample.
Proof.
  unfold slot_back.
  destruct (index (samples (empty_buffer t))
              ((nextIndex (empty_buffer t) - 1 - Z.of_nat k) mod historySize))
    as [s|] eqn:Hs; [|done].
  unfold index in Hs.
  destruct (_ && _); [|done].
  by apply lookup_replicate_1 in Hs as [-> _].
Qed.

(** The slots behind the cursor after one record operation: the new
    sample, then the slots that were behind the cursor before. *)
Lemma slot_back_record g s g' k :
  wf g → record g s = Some g' → (k < Z.to_nat historySize)%nat →
  slot_back g' k = match k with O => s | S k' => slot_back g k' end.
Proof.
  intros Hg. rewrite record_wf by done. intros [= <-] Hk.
  pose proof (wf_length g Hg) as Hl. destruct Hg as [_ Hc].
  unfold slot_back. simpl nextIndex. simpl samples.
  unfold historySize in *.
  assert (((nextIndex g + 1) mod 100 - 1 - Z.of_nat k) mod 100
          = (nextIndex g - Z.of_nat k) mod 100) as ->.
  { rewrite <- (Zminus_mod_idemp_l ((nextIndex g + 1) mod 100 - 1)).
    rewrite (Zminus_mod_idemp_l (nextIndex g + 1) 1).
    rewrite Zminus_mod_idemp_l. f_equal. lia. }
  destruct k as [|k].
  - replace (nextIndex g - Z.of_nat 0) with (nextIndex g) by lia.
    rewrite Z.mod_small by lia. by rewrite index_insert_eq by lia.
  - replace (nextIndex g - Z.of_nat (S k))
      with (nextIndex g - 1 - Z.of_nat k) by lia.
    rewrite index_insert_ne; [done | lia |].
    intros Heq.
    pose proof (Z.mod_pos_bound (nextIndex g - 1 - Z.of_nat k) 100).
    pose proof (Z.div_mod (nextIndex g - 1 - Z.of_nat k) 100). lia.
Qed.

Lemma record_thresholds g s g' :
  record g s = Some g' → thresholds_of g' = thresholds_of g.
Proof.
  unfold record. destruct (assign _ _ _); [|done]. simpl. by intros [= <-].
Qed.

(** A sequence of record operations on a buffer that satisfies the
    invariant never fails; behind the cursor it leaves the recorded
    samples, newest first, followed by what was behind the cursor
    before. *)
Lemma record_all_spec l :
  ∀ g, wf g →
    ∃ g',
      record_all g l = Some g' ∧ wf g' ∧
      thresholds_of g' = thresholds_of g ∧
      nextIndex g' = (nextIndex g + Z.of_nat (length l)) mod historySize ∧
      ∀ k, (k < Z.to_nat historySize)%nat →
        slot_back g' k =
          match reverse l !! k with
          | Some s => s
          | None => slot_back g (k - length l)
          end.
Proof.
  induction l as [|s l IH]; intros g Hg.
  - exists g. split; [done|]. split; [done|]. split; [done|].
    split; [simpl; rewrite Z.add_0_r, Z.mod_small; [done|apply Hg]|].
    intros k _. simpl. by rewrite Nat.sub_0_r.
  - assert (∃ g1, record g s = Some g1) as [g1 Hg1]
      by (eexists; by apply record_wf).
    pose proof (record_preserves_wf g s g1 Hg Hg1) as Hwf1.
    destruct (IH g1 Hwf1) as (g' & Hr & Hwf' & Ht & Hn & Hs).
    exists g'. simpl. rewrite Hg1. simpl.
    split; [done|]. split; [done|].
    split; [by rewrite Ht; eapply record_thresholds|].
    split.
    + rewrite Hn. rewrite record_wf in Hg1 by done.
      injection Hg1 as <-. simpl nextIndex.
      rewrite Zplus_mod_idemp_l. f_equal. lia.
    + intros k Hk. rewrite (Hs k Hk), reverse_cons.
      destruct (reverse l !! k) as [x|] eqn:Hx.
      * by rewrite (lookup_app_l_Some _ _ _ _ Hx).
      * apply lookup_ge_None in Hx. rewrite length_reverse in Hx.
        rewrite lookup_app_r by (rewrite length_reverse; lia).
        rewrite length_reverse.
        rewrite (slot_back_record g s g1) by (done || lia).
        destruct (k - length l)%nat as [|j] eqn:Hj; simpl; [done|].
        f_equal. lia.
Qed.

(** From the initial state: the slots behind the cursor are the
    recorded samples, newest first, as far as they go, and slots never
    written after them. *)
Lemma backward_record_all t l g :
  record_all (empty_buffer t) l = Some g →
  backward g =
    take (Z.to_nat historySize) (reverse l)
    ++ replicate (Z.to_nat historySize - length l) zero_sample.
Proof.
  intros Hg.
  destruct (record_all_spec l (empty_buffer t) (wf_empty t))
    as (g' & Hr & _ & _ & _ & Hs).
  rewrite Hg in Hr. injection Hr as <-.
  apply list_eq_same_length with (Z.to_nat historySize).
  - rewrite length_app, length_take, length_reverse, length_replicate. lia.
  - unfold backward. by rewrite length_fmap, length_seq.
  - intros i x y Hi. unfold backward.
    rewrite list_lookup_fmap, lookup_seq_lt by done. simpl.
    intros [= <-]. rewrite (Hs i Hi).
    destruct (reverse l !! i) as [s|] eqn:Hl.
    + rewrite lookup_app_l
        by (apply lookup_lt_Some in Hl;
            rewrite length_take; lia).
      rewrite lookup_take_lt by done. rewrite Hl. by intros [= <-].
    + apply lookup_ge_None in Hl. rewrite slot_back_empty.
      rewrite lookup_app_r by (rewrite length_take; lia).
      by intros [-> _]%lookup_replicate_1.
Qed.

Lemma rendered_record_all t l g :
  record_all (empty_buffer t) l = Some g →
  rendered g = take_while started (take (Z.to_nat historySize) (reverse l)).
Proof.
  intros Hg. unfold rendered. rewrite (backward_record_all t l g Hg).
  destruct (Z.to_nat historySize - length l)%nat as [|n]; simpl.
  - by rewrite app_nil_r.
  - by apply take_while_app_stop.
Qed.

(** Any sequence of record operations on an empty buffer succeeds, and
    [Samples] then returns a table. *)
Lemma record_all_Samples t l now :
  ∃ g table,
    record_all (empty_buffer t) l = Some g ∧ wf g ∧
    thresholds_of g = t ∧
    Samples g now = Some table ∧
    data_rows table =
      row_text g now <$>
        take_while started (take (Z.to_nat historySize) (reverse l)).
Proof.
  destruct (record_all_spec l (empty_buffer t) (wf_empty t))
    as (g & Hr & Hg & Ht & _).
  destruct (Samples_lines g now Hg) as (table & Hs & Hl).
  exists g, table. split; [done|]. split; [done|].
  split; [rewrite Ht; by destruct t|]. split; [done|].
  rewrite (Samples_data_rows g now table Hg Hs).
  by rewrite (rendered_record_all t l g Hr).
Qed.

(** C5. For every sequence of samples recorded into an initially empty
    buffer (under any thresholds, and whatever their start timestamps),
    the record operations succeed, [Samples] returns a table, and the
    number of its data rows is at most the minimum of the number of
    samples recorded and 100. *)
Theorem render_rows_at_most_recorded :
  ∀ (t : thresholds) (l : list sample) (now : time.Time),
    ∃ (g : globals) (table : string),
      record_all (empty_buffer t) l = Some g ∧
      Samples g now = Some table ∧
      (length (data_rows table) ≤ length l `min` 100)%nat.
Proof.
  intros t l now.
  destruct (record_all_Samples t l now) as (g & table & Hr & _ & _ & Hs & Hd).
  exists g, table. split; [done|]. split; [done|].
  rewrite Hd, length_fmap.
  etrans; [apply take_while_length|].
  rewrite length_take, length_reverse.
  change (Z.to_nat historySize) with 100%nat. lia.
Qed.

(** ** Slots and the walk behind the cursor *)

Lemma backward_lookup g k :
  (k < Z.to_nat historySize)%nat → backward g !! k = Some (slot_back g k).
Proof.
  intros Hk. unfold backward.
  by rewrite list_lookup_fmap, lookup_seq_lt.
Qed.

Lemma backward_length g : length (backward g) = Z.to_nat historySize.
Proof. unfold backward. by rewrite length_fmap, length_seq. Qed.

(** Every slot of the array is met by the walk. *)
Lemma index_slot_back g j :
  wf g → 0 <= j < historySize →
  index (samples g) j =
    Some (slot_back g (Z.to_nat ((nextIndex g - 1 - j) mod historySize))).
Proof.
  intros Hg Hj.
  rewrite <- slot_back_index by done. f_equal.
  pose proof (Z.mod_pos_bound (nextIndex g - 1 - j) historySize) as Hb.
  unfold historySize in *. rewrite Z2Nat.id by lia.
  rewrite Zminus_mod_idemp_r.
  replace (nextIndex g - 1 - (nextIndex g - 1 - j)) with j by lia.
  rewrite Z.mod_small; lia.
Qed.

Lemma samples_lookup_slot_back g (j : nat) s :
  wf g → samples g !! j = Some s →
  ∃ k, (k < Z.to_nat historySize)%nat ∧ slot_back g k = s.
Proof.
  intros Hg Hs. pose proof (wf_length g Hg) as Hl.
  pose proof (lookup_lt_Some _ _ _ Hs) as Hj.
  pose proof (index_slot_back g (Z.of_nat j) Hg ltac:(lia)) as Hi.
  rewrite index_Some, Nat2Z.id, Hs in Hi by lia.
  injection Hi as ->. eexists. split; [|done].
  pose proof (Z.mod_pos_bound (nextIndex g - 1 - Z.of_nat j) historySize).
  unfold historySize in *. lia.
Qed.

Lemma elem_of_samples_backward g s :
  wf g → s ∈ samples g → s ∈ backward g.
Proof.
  intros Hg [j Hj]%list_elem_of_lookup.
  destruct (samples_lookup_slot_back g j s Hg Hj) as (k & Hk & <-).
  apply list_elem_of_lookup. exists k. by apply backward_lookup.
Qed.

(** Two states with the same thresholds, the same cursor and the same
    slots behind the cursor are the same state. *)
Lemma globals_ext g g' :
  wf g → wf g' →
  thresholds_of g = thresholds_of g' →
  nextIndex g = nextIndex g' →
  backward g = backward g' →
  g = g'.
Proof.
  intros Hg Hg' Ht Hn Hb.
  assert (samples g = samples g') as Hs.
  { apply list_eq_same_length with (Z.to_nat historySize);
      [apply Hg' | apply Hg |].
    intros i x y Hi Hx Hy.
    pose proof (index_slot_back g (Z.of_nat i) Hg
                  ltac:(unfold historySize in *; lia)) as Hi1.
    pose proof (index_slot_back g' (Z.of_nat i) Hg'
                  ltac:(unfold historySize in *; lia)) as Hi2.
    rewrite index_Some, Nat2Z.id in Hi1, Hi2
      by (rewrite wf_length by done; unfold historySize in *; lia).
    rewrite Hx in Hi1. rewrite Hy in Hi2.
    injection Hi1 as ->. injection Hi2 as ->. rewrite <- Hn.
    set (k := Z.to_nat ((nextIndex g - 1 - Z.of_nat i) mod historySize)).
    assert (k < Z.to_nat historySize)%nat as Hk.
    { pose proof (Z.mod_pos_bound (nextIndex g - 1 - Z.of_nat i) historySize).
      unfold k, historySize in *. lia. }
    pose proof (backward_lookup g k Hk) as H1.
    pose proof (backward_lookup g' k Hk) as H2.
    rewrite Hb in H1. rewrite H1 in H2. by injection H2. }
  destruct g, g'. unfold thresholds_of in Ht. simpl in *.
  injection Ht as -> -> -> ->. by subst.
Qed.

(** C6. For every k >= 1, after 100 + k samples are recorded into an
    initially empty buffer (the first k called [old], the last 100
    [recent]): the 100 slots, walked back from the cursor, hold exactly
    the most recent 100 samples, newest first, so every slot holds one
    of them and none is left to the first k; the state is the same
    whatever the first k samples were; and the data rows of a render are
    the rows of the most recent samples, newest first, up to the first
    whose start timestamp is zero - all 100 of them when none is. *)
Theorem wraparound_keeps_only_most_recent :
  ∀ (k : nat) (old recent : list sample) (t : thresholds)
    (now : time.Time),
    (1 ≤ k)%nat → length old = k → length recent = 100%nat →
    ∃ g : globals,
      record_all (empty_buffer t) (old ++ recent) = Some g ∧
      backward g = reverse recent ∧
      (∀ s : sample, s ∈ samples g → s ∈ recent) ∧
      (∀ old' : list sample, length old' = k →
         record_all (empty_buffer t) (old' ++ recent) = Some g) ∧
      ∃ table : string,
        Samples g now = Some table ∧
        data_rows table =
          row_text g now <$> take_while started (reverse recent) ∧
        (Forall (λ s, started s = true) recent →
           data_rows table = row_text g now <$> reverse recent).
Proof.
  intros k old recent t now Hk Hold Hrecent.
  assert (∀ o, take (Z.to_nat historySize) (reverse (o ++ recent))
               = reverse recent) as Htake.
  { intros o. rewrite reverse_app. apply take_app_length'.
    by rewrite length_reverse, Hrecent. }
  assert (∀ o g, record_all (empty_buffer t) (o ++ recent) = Some g →
                 backward g = reverse recent) as Hback.
  { intros o g Hg. rewrite (backward_record_all t _ g Hg), Htake.
    rewrite length_app, Hrecent.
    replace (Z.to_nat historySize - (length o + 100))%nat with 0%nat
      by (unfold historySize; lia).
    apply app_nil_r. }
  destruct (record_all_spec (old ++ recent) (empty_buffer t) (wf_empty t))
    as (g & Hr & Hg & Ht & Hn & _).
  exists g. split; [done|]. split; [by eapply Hback|]. split.
  { intros s Hs. apply elem_of_reverse. rewrite <- (Hback old g Hr).
    by apply elem_of_samples_backward. }
  split.
  { intros old' Hold'.
    destruct (record_all_spec (old' ++ recent) (empty_buffer t) (wf_empty t))
      as (g' & Hr' & Hg' & Ht' & Hn' & _).
    rewrite Hr'. f_equal. apply globals_ext; try done.
    - by rewrite Ht, Ht'.
    - rewrite Hn, Hn', !length_app. by rewrite Hold, Hold'.
    - by rewrite (Hback old g Hr), (Hback old' g' Hr'). }
  destruct (Samples_lines g now Hg) as (table & Hs & Hl).
  exists table. split; [done|].
  assert (data_rows table
          = row_text g now <$> take_while started (reverse recent)) as Hd.
  { rewrite (Samples_data_rows g now table Hg Hs).
    by rewrite (rendered_record_all t _ g Hr), Htake. }
  split; [done|].
  intros Hall. rewrite Hd. f_equal. apply take_while_all.
  by apply Forall_reverse.
Qed.

(** C7. On every buffer that satisfies the invariant, [Samples] walks
    the slots backward from the one just before the cursor (the one
    written last), wrapping from slot 0 to slot 99, and writes one row
    for each slot it meets, in that order, until the first slot whose
    start timestamp is zero. So after at most 100 samples with non-zero
    start timestamps were recorded into an empty buffer, the data rows
    are exactly the rows of the recorded samples, newest first. *)
Theorem render_walks_backward_newest_first :
  ∀ (g : globals) (t : thresholds) (l : list sample) (now : time.Time),
    wf g →
    (length l ≤ 100)%nat →
    Forall (λ s, started s = true) l →
    (∃ table : string,
       Samples g now = Some table ∧
       data_rows table = row_text g now <$> take_while started (backward g) ∧
       length (backward g) = 100%nat ∧
       ∀ k : nat, (k < 100)%nat →
         backward g !! k =
           index (samples g) ((nextIndex g - 1 - Z.of_nat k) mod 100)) ∧
    (∃ (g' : globals) (table : string),
       record_all (empty_buffer t) l = Some g' ∧
       Samples g' now = Some table ∧
       data_rows table = row_text g' now <$> reverse l).
Proof.
  intros g t l now Hg Hlen Hall. split.
  - destruct (Samples_lines g now Hg) as (table & Hs & Hl).
    exists table. split; [done|].
    split; [by apply Samples_data_rows|].
    split; [apply backward_length|].
    intros k Hk. rewrite backward_lookup by done.
    symmetry. by apply slot_back_index.
  - destruct (record_all_Samples t l now)
      as (g' & table & Hr & _ & _ & Hs & Hd).
    exists g', table. split; [done|]. split; [done|].
    rewrite Hd. f_equal.
    rewrite take_ge
      by (rewrite length_reverse; change (Z.to_nat historySize) with 100%nat;
          lia).
    apply take_while_all. by apply Forall_reverse.
Qed.

(** Three passes into the empty buffer: three rows, newest first. *)
Lemma render_walks_backward_newest_first_witness :
  wf after_slow_pass ∧
  (length (passes 0 3) ≤ 100)%nat ∧
  Forall (λ s, started s = true) (passes 0 3) ∧
  ∃ (g' : globals) (table : string),
    record_all (empty_buffer (thresholds_of initial)) (passes 0 3) = Some g' ∧
    Samples g' (at_ns (3 * time.Second)) = Some table ∧
    data_rows table
    = row_text g' (at_ns (3 * time.Second)) <$> reverse (passes 0 3).
Proof.
  assert (wf after_slow_pass) as Hg
    by (split; [reflexivity | by vm_compute]).
  assert (length (passes 0 3) ≤ 100)%nat as Hlen by (vm_compute; lia).
  assert (Forall (λ s, started s = true) (passes 0 3)) as Hall
    by (repeat constructor).
  split; [exact Hg|]. split; [exact Hlen|]. split; [exact Hall|].
  exact (proj2 (render_walks_backward_newest_first after_slow_pass
                  (thresholds_of initial) (passes 0 3)
                  (at_ns (3 * time.Second)) Hg Hlen Hall)).
Defined.

(** One sample too many for 100 slots: the first one is gone. *)
Lemma wraparound_keeps_only_most_recent_witness :
  (1 ≤ 1)%nat ∧ length (passes 0 1) = 1%nat ∧
  length (passes 1 100) = 100%nat ∧
  ∃ g : globals,
    record_all (empty_buffer (thresholds_of initial))
      (passes 0 1 ++ passes 1 100) = Some g ∧
    backward g = reverse (passes 1 100) ∧
    (∀ s : sample, s ∈ samples g → s ∈ passes 1 100) ∧
    (∀ old' : list sample, length old' = 1%nat →
       record_all (empty_buffer (thresholds_of initial))
         (old' ++ passes 1 100) = Some g) ∧
    ∃ table : string,
      Samples g (at_ns (101 * time.Second)) = Some table ∧
      data_rows table =
        row_text g (at_ns (101 * time.Second)) <$>
          take_while started (reverse (passes 1 100)) ∧
      (Forall (λ s, started s = true) (passes 1 100) →
         data_rows table =
           row_text g (at_ns (101 * time.Second)) <$>
             reverse (passes 1 100)).
Proof.
  split; [lia|]. split; [reflexivity|]. split; [reflexivity|].
  apply (wraparound_keeps_only_most_recent 1 (passes 0 1) (passes 1 100)
           (thresholds_of initial) (at_ns (101 * time.Second)));
    [lia | reflexivity | reflexivity].
Defined.

(** ** The marker *)

Lemma rendered_set_thresholds g t : rendered (set_thresholds g t) = rendered g.
Proof. reflexivity. Qed.

Lemma thresholds_of_set_thresholds g t : thresholds_of (set_thresholds g t) = t.
Proof. by destruct t. Qed.

(** C9. Let [g] be a state of the buffer (whatever the thresholds were
    while its samples were recorded) and [t] the values of the threshold
    variables when [Samples] runs. Then [Samples] writes one data row
    for each rendered sample, and the row of a sample [s] ends with the
    marker exactly when [s] exceeds [t], the thresholds at render time.
    So lowering a threshold after a sample was recorded can add the
    marker to its row, and raising one can remove it: the sample of a
    pass with 5µs of oversleep has no marker under the default
    thresholds and has one once [OversleepThreshold] is 1µs, and the
    sample of a pass with 22µs has one under the default thresholds and
    none once [OversleepThreshold] is 1ms. *)
Theorem marker_follows_thresholds_at_render_time :
  ∀ (g : globals) (t : thresholds) (now : time.Time),
    wf g →
    (∃ table : string,
       Samples (set_thresholds g t) now = Some table ∧
       length (data_rows table) = length (rendered g) ∧
       ∀ (i : nat) (s : sample),
         rendered g !! i = Some s →
         ∃ line : string,
           data_rows table !! i = Some line ∧
           line = row_text (set_thresholds g t) now s ∧
           (marked line = true ↔ exceeds t s)) ∧
    (let lowered := mkThresholds 1000 10000 10000 100000 in
     let s := measure (pass 0 5000) in
     rendered after_quick_pass = [s] ∧
     marked (row_text after_quick_pass now s) = false ∧
     marked (row_text (set_thresholds after_quick_pass lowered) now s)
     = true) ∧
    (let raised := mkThresholds 1000000 10000 10000 100000 in
     let s := measure (pass 0 22000) in
     rendered after_slow_pass = [s] ∧
     marked (row_text after_slow_pass now s) = true ∧
     marked (row_text (set_thresholds after_slow_pass raised) now s)
     = false).
Proof.
  intros g t now Hg. split; [|split].
  - pose proof (wf_set_thresholds g t Hg) as Hg'.
    destruct (Samples_lines (set_thresholds g t) now Hg')
      as (table & Hs & Hl).
    exists table. split; [done|].
    pose proof (Samples_data_rows _ now table Hg' Hs) as Hd.
    rewrite rendered_set_thresholds in Hd.
    split; [by rewrite Hd, length_fmap|].
    intros i s Hi. eexists. split; [|split; [reflexivity|]].
    + by rewrite Hd, list_lookup_fmap, Hi.
    + rewrite marked_row_text, overThreshold_exceeds.
      by rewrite thresholds_of_set_thresholds.
  - cbv zeta. rewrite !marked_row_text. by vm_compute.
  - cbv zeta. rewrite !marked_row_text. by vm_compute.
Qed.

Lemma marker_follows_thresholds_at_render_time_witness :
  wf after_slow_pass ∧
  ∃ table : string,
    Samples (set_thresholds after_slow_pass
               (mkThresholds 1000000 10000 10000 100000))
      (at_ns (1 * time.Second)) = Some table ∧
    length (data_rows table) = length (rendered after_slow_pass) ∧
    ∀ (i : nat) (s : sample),
      rendered after_slow_pass !! i = Some s →
      ∃ line : string,
        data_rows table !! i = Some line ∧
        line = row_text (set_thresholds after_slow_pass
                           (mkThresholds 1000000 10000 10000 100000))
                 (at_ns (1 * time.Second)) s ∧
        (marked line = true
         ↔ exceeds (mkThresholds 1000000 10000 10000 100000) s).
Proof.
  assert (wf after_slow_pass) as Hg
    by (split; [reflexivity | by vm_compute]).
  split; [exact Hg|].
  exact (proj1 (marker_follows_thresholds_at_render_time after_slow_pass
                  (mkThresholds 1000000 10000 10000 100000)
                  (at_ns (1 * time.Second)) Hg)).
Defined.

(** C1, as the code has it. On every buffer that satisfies the
    invariant, [Samples] returns the rendered table of the buffer: the
    header line, then the data rows. Its rows are highlighted: no row
    carries the over-threshold marker exactly when no rendered sample
    exceeds the thresholds in force. *)
Theorem Samples_rows_unmarked_iff_none_exceeds :
  ∀ (g : globals) (now : time.Time),
    wf g →
    ∃ table : string,
      Samples g now = Some table ∧
      lines table = header :: data_rows table ∧
      data_rows table = row_text g now <$> rendered g ∧
      (Forall (λ line, marked line = false) (data_rows table) ↔
       Forall (λ s, ¬ exceeds (thresholds_of g) s) (rendered g)).
Proof.
  intros g now Hg.
  destruct (Samples_lines g now Hg) as (table & Hs & Hl).
  exists table. split; [done|].
  pose proof (Samples_data_rows g now table Hg Hs) as Hd.
  split; [by rewrite Hl, Hd|]. split; [done|].
  rewrite Hd, Forall_fmap. apply Forall_iff. intros s. simpl.
  by rewrite marked_row_text, overThreshold_not_exceeds.
Qed.

Lemma Samples_rows_unmarked_iff_none_exceeds_witness :
  wf after_quick_pass ∧
  ∃ table : string,
    Samples after_quick_pass (at_ns (1 * time.Second)) = Some table ∧
    lines table = header :: data_rows table ∧
    data_rows table =
      row_text after_quick_pass (at_ns (1 * time.Second)) <$>
        rendered after_quick_pass ∧
    (Forall (λ line, marked line = false) (data_rows table) ↔
     Forall (λ s, ¬ exceeds (thresholds_of after_quick_pass) s)
       (rendered after_quick_pass)).
Proof.
  assert (wf after_quick_pass) as Hg
    by (split; [reflexivity | by vm_compute]).
  split; [exact Hg|].
  exact (Samples_rows_unmarked_iff_none_exceeds after_quick_pass
           (at_ns (1 * time.Second)) Hg).
Defined.

(** C1, as stated, fails: after one pass with 22µs of oversleep, under
    the default thresholds, the only data row of the table [Samples]
    returns carries the marker. *)
Lemma Samples_without_highlighting_counterexample :
  wf after_slow_pass ∧
  Samples after_slow_pass (at_ns (1 * time.Second)) =
    Some ("| Sampled at | Oversleep  | Chan send  | Ping-pong  | Chain      |"
          +:+ nl +:+
          "|   1.0s ago |       22µs |        2µs |        3µs |       40µs | <---"
          +:+ nl) ∧
  ¬ ∀ (g : globals) (now : time.Time) (table : string),
      wf g → Samples g now = Some table →
      Forall (λ line, marked line = false) (data_rows table).
Proof.
  assert (wf after_slow_pass) as Hg
    by (split; [reflexivity | by vm_compute]).
  split; [exact Hg|]. split; [by vm_compute|].
  intros Hall.
  specialize (Hall after_slow_pass (at_ns (1 * time.Second)) _ Hg eq_refl).
  vm_compute in Hall. inversion Hall as [|? ? Hm _]. discriminate Hm.
Qed.

(** ** The sampling loop *)

Section LoopProofs.

Context {W : Type} `{Warner W}.

Lemma collectSample_wf g r :
  wf g →
  ∃ g', collectSample g r = Some (g', measure r) ∧ wf g' ∧
        thresholds_of g' = thresholds_of g.
Proof.
  intros Hg. unfold collectSample.
  destruct (record g (measure r)) as [g'|] eqn:Hr;
    [|by rewrite record_wf in Hr].
  exists g'. split; [done|].
  split; [by eapply record_preserves_wf | by eapply record_thresholds].
Qed.

(** An iteration from a state that satisfies the invariant does not
    fail and keeps the invariant. *)
Lemma loop_body_wf (st : loop_state) (e : event W) :
  wf (pkg st) →
  ∃ st' o, loop_body st e = Some (st', o) ∧ wf (pkg st').
Proof.
  intros Hg. destruct e as [r|w now|t]; simpl.
  - destruct (collectSample_wf (pkg st) r Hg) as (g' & -> & Hg' & _).
    simpl. eauto.
  - destruct (bad st); [|eauto].
    rewrite Samples_spec by done. simpl. eauto.
  - eauto using wf_set_thresholds.
Qed.

Lemma loop_wf (evs : list (event W)) :
  ∀ st st' ws, wf (pkg st) → loop st evs = Some (st', ws) → wf (pkg st').
Proof.
  induction evs as [|e evs IH]; intros st st' ws Hg; simpl.
  - by intros [= <- _].
  - destruct (loop_body_wf st e Hg) as (st1 & o & -> & Hg1). simpl.
    destruct (loop st1 evs) as [[st2 ws2]|] eqn:Hl; simpl; [|done].
    intros [= <- _]. by eapply IH.
Qed.

Lemma reachable_wf (st : loop_state) : reachable st → wf (pkg st).
Proof.
  intros (evs & ws & Hl). eapply loop_wf; [|exact Hl]. exact wf_initial.
Qed.

(** The flag [bad] along a run of the loop. *)
Lemma loop_bad (evs : list (event W)) :
  ∀ st acc,
    wf (pkg st) →
    (bad st = true ↔ Exists (λ x, exceeds x.2 x.1) acc) →
    ∃ st' ws,
      loop st evs = Some (st', ws) ∧
      (bad st' = true ↔
       Exists (λ x, exceeds x.2 x.1)
         (since_check (thresholds_of (pkg st)) evs acc)).
Proof.
  induction evs as [|e evs IH]; intros st acc Hg Hb.
  - exists st, []. by split.
  - destruct e as [r|w now|t]; cbn [loop loop_body since_check].
    + destruct (collectSample_wf (pkg st) r Hg) as (g' & -> & Hg' & Ht).
      cbn [mbind option_bind].
      destruct (IH {| pkg := g';
                      bad := if overThreshold g' (measure r) then true
                             else bad st |}
                  (acc ++ [(measure r, thresholds_of (pkg st))]))
        as (st' & ws & -> & Hb'); [done| |].
      * cbn [bad]. rewrite Exists_app, Exists_cons, Exists_nil.
        cbn [fst snd]. rewrite <- Ht, <- overThreshold_exceeds.
        destruct (overThreshold g' (measure r)); intuition congruence.
      * cbn [pkg] in Hb'. rewrite Ht in Hb'.
        cbn [mbind option_bind]. eauto.
    + destruct (bad st) eqn:Hbad.
      * rewrite Samples_spec by done. cbn [mbind option_bind].
        destruct (IH {| pkg := pkg st; bad := false |} [])
          as (st' & ws & -> & Hb'); [done| |].
        { cbn [bad]. rewrite Exists_nil. intuition congruence. }
        cbn [mbind option_bind]. eauto.
      * cbn [mbind option_bind].
        destruct (IH st []) as (st' & ws & -> & Hb'); [done| |].
        { rewrite Hbad, Exists_nil. intuition congruence. }
        cbn [mbind option_bind]. eauto.
    + cbn [mbind option_bind].
      destruct (IH {| pkg := set_thresholds (pkg st) t; bad := bad st |} acc)
        as (st' & ws & -> & Hb'); [by apply wf_set_thresholds|done|].
      cbn [pkg] in Hb'. rewrite thresholds_of_set_thresholds in Hb'.
      cbn [mbind option_bind]. eauto.
Qed.

End LoopProofs.

(** C3. Every sequence of tick events, Check events and assignments to
    the thresholds, from the initial state, is served by the loop
    without failure, and in the state it leads to [bad] is true exactly
    when at least one sample recorded since the last Check (since the
    start when there was none) exceeded the thresholds in force when it
    was recorded. *)
Theorem bad_iff_exceeded_since_last_Check :
  ∀ (W : Type) (Wn : Warner W) (evs : list (event W)),
    ∃ (st : loop_state) (ws : list W),
      loop loop_start evs = Some (st, ws) ∧
      (bad st = true ↔
       Exists (λ x : sample * thresholds, exceeds x.2 x.1)
         (since_check (thresholds_of initial) evs [])).
Proof.
  intros W Wn evs.
  apply (loop_bad evs loop_start []); [exact wf_initial|].
  simpl. rewrite Exists_nil. intuition congruence.
Qed.

(** C2. Let [st] be a state the loop reaches from its start by a
    sequence of events [evs]. For every Check then, with any sink [w]:
    the iteration does not fail; the calls of [Warningf] it makes on [w]
    are at most one; it makes one only if [bad] is set - that is, only
    if some sample recorded since the last Check of [evs] (since the
    start when there is none) exceeded the thresholds then in force -
    and with the table [Samples] returns; afterwards [bad] is clear and
    the package variables are as before; hence a Check that follows
    immediately makes no call and changes nothing. *)
Theorem Check_warns_at_most_once :
  ∀ (W : Type) (Wn : Warner W) (evs : list (event W)) (ws : list W)
    (st : loop_state) (w : W) (now : time.Time),
    loop loop_start evs = Some (st, ws) →
    ∃ (st' : loop_state) (msgs : list (list arg)),
      loop_body st (Check w now)
      = Some (st', Some (foldl (λ w m, Warningf w warning_format m) w msgs)) ∧
      (length msgs ≤ 1)%nat ∧
      (∀ m, m ∈ msgs →
         bad st = true ∧
         Exists (λ x : sample * thresholds, exceeds x.2 x.1)
           (since_check (thresholds_of initial) evs []) ∧
         ∃ table, Samples (pkg st) now = Some table ∧
                  m = [ArgInt 100; ArgString table]) ∧
      (bad st = true → length msgs = 1%nat) ∧
      bad st' = false ∧
      pkg st' = pkg st ∧
      ∀ (w2 : W) (now2 : time.Time),
        loop_body st' (Check w2 now2) = Some (st', Some w2).
Proof.
  intros W Wn evs ws st w now Hevs.
  assert (wf (pkg st)) as Hst by (apply reachable_wf; by exists evs, ws).
  assert (bad st = true →
          Exists (λ x : sample * thresholds, exceeds x.2 x.1)
            (since_check (thresholds_of initial) evs [])) as Hsince.
  { destruct (loop_bad evs loop_start []) as (st0 & ws0 & Hl & Hb);
      [exact wf_initial | |].
    - simpl. rewrite Exists_nil. intuition congruence.
    - rewrite Hevs in Hl. injection Hl as <- <-. apply Hb. }
  unfold Check. cbn [loop_body].
  destruct (bad st) eqn:Hbad.
  - rewrite Samples_spec by done. cbn [mbind option_bind].
    eexists _, [_]. split; [reflexivity|].
    split; [simpl; lia|]. split.
    { intros m ->%list_elem_of_singleton. split; [done|].
      split; [by apply Hsince|]. eexists. split; reflexivity. }
    split; [done|]. split; [done|]. split; [done|]. done.
  - exists st, []. split; [done|].
    split; [simpl; lia|]. split.
    { by intros m ?%elem_of_nil. }
    split; [done|]. split; [done|]. split; [done|].
    intros w2 now2. by rewrite Hbad.
Qed.

(** After one slow pass, a Check on a recording sink logs one message,
    and a second Check logs nothing more. *)
Lemma Check_warns_at_most_once_witness :
  let st := {| pkg := after_slow_pass; bad := true |} in
  loop (W := list (string * list arg)) loop_start [Tick (pass 0 22000)]
  = Some (st, []) ∧
  ∃ (st' : loop_state) (msgs : list (list arg)),
    loop_body st (Check [] (at_ns (1 * time.Second)))
    = Some (st', Some (foldl (λ w m, Warningf w warning_format m) [] msgs)) ∧
    (length msgs ≤ 1)%nat ∧
    (∀ m, m ∈ msgs →
       bad st = true ∧
       Exists (λ x : sample * thresholds, exceeds x.2 x.1)
         (since_check (W := list (string * list arg))
            (thresholds_of initial) [Tick (pass 0 22000)] []) ∧
       ∃ table, Samples (pkg st) (at_ns (1 * time.Second)) = Some table ∧
                m = [ArgInt 100; ArgString table]) ∧
    (bad st = true → length msgs = 1%nat) ∧
    bad st' = false ∧
    pkg st' = pkg st ∧
    ∀ (w2 : list (string * list arg)) (now2 : time.Time),
      loop_body st' (Check w2 now2) = Some (st', Some w2).
Proof.
  assert (loop (W := list (string * list arg)) loop_start
            [Tick (pass 0 22000)]
          = Some ({| pkg := after_slow_pass; bad := true |}, [])) as Hevs
    by reflexivity.
  split; [exact Hevs|].
  exact (Check_warns_at_most_once (list (string * list arg)) recorder
           [Tick (pass 0 22000)] []
           {| pkg := after_slow_pass; bad := true |} []
           (at_ns (1 * time.Second)) Hevs).
Defined.

(** ** The chain of relay goroutines *)

Section Pipeline.

Import pipeline.

Lemma wiring_set_held i h rs : wiring (set_held i h rs) = wiring rs.
Proof.
  unfold set_held, wiring. destruct (rs !! i) as [r|] eqn:Hr; [|done].
  rewrite list_fmap_insert. apply list_insert_id.
  by rewrite list_lookup_fmap, Hr.
Qed.

(** A step changes what goroutines hold, never which goroutines
    there are. *)
Lemma step_wiring n l n' :
  step n l n' → wiring (goroutines n') = wiring (goroutines n).
Proof.
  unfold step, successors. intros [Hs|Hr]%elem_of_app.
  - unfold sampler_steps in Hs.
    destruct (sampler n) as [|[|c v|c] rest]; [by apply elem_of_nil in Hs|..].
    + destruct (clock n); [by apply elem_of_nil in Hs|].
      by apply list_elem_of_singleton in Hs as [= -> ->].
    + apply list_elem_of_bind in Hs as ([i r] & Hs & _).
      destruct (held r); [by apply elem_of_nil in Hs|].
      destruct (rin r =? c)%nat; [|by apply elem_of_nil in Hs].
      apply list_elem_of_singleton in Hs as [= -> ->].
      apply wiring_set_held.
    + apply list_elem_of_bind in Hs as ([i r] & Hs & _).
      destruct (held r); [|by apply elem_of_nil in Hs].
      destruct (rout r =? c)%nat; [|by apply elem_of_nil in Hs].
      apply list_elem_of_singleton in Hs as [= -> ->].
      apply wiring_set_held.
  - unfold relay_steps in Hr.
    apply list_elem_of_bind in Hr as ([i r] & Hr & _).
    destruct (held r); [|by apply elem_of_nil in Hr].
    apply list_elem_of_bind in Hr as ([j r'] & Hr & _).
    destruct (held r'); [by apply elem_of_nil in Hr|].
    destruct (rin r' =? rout r)%nat; [|by apply elem_of_nil in Hr].
    apply list_elem_of_singleton in Hr as [= -> ->]. simpl.
    by rewrite !wiring_set_held.
Qed.

Lemma execution_wiring n ls n' :
  execution n ls n' → wiring (goroutines n') = wiring (goroutines n).
Proof.
  induction 1 as [|n l n1 ls n2 Hs _ IH]; [done|].
  rewrite IH. by eapply step_wiring.
Qed.

Lemma execution_app n ls1 n1 ls2 n2 :
  execution n ls1 n1 → execution n1 ls2 n2 → execution n (ls1 ++ ls2) n2.
Proof.
  induction 1 as [|n l n1 ls n1' Hs _ IH]; intros H2; [done|].
  simpl. eapply exec_cons; [done|]. by apply IH.
Qed.

(** When each state met has one successor only, there is one way to
    run: every execution follows it. *)
Lemma unique_run_sound k :
  ∀ n tr n1,
    unique_run k n = Some (tr, n1) →
    execution n tr n1 ∧
    ∀ ls n', execution n ls n' →
      ls `prefix_of` tr ∨ ∃ ls2, ls = tr ++ ls2 ∧ execution n1 ls2 n'.
Proof.
  induction k as [|k IH]; intros n tr n1; simpl.
  - intros [= <- <-]. split; [constructor|].
    intros ls n' He. right. by exists ls.
  - destruct (successors n) as [|[l m] [|? ?]] eqn:Hsucc; [done| |done].
    destruct (unique_run k m) as [[tr' n2]|] eqn:Hk; simpl; [|done].
    intros [= <- <-]. destruct (IH m tr' n2 Hk) as [He Hall].
    assert (∀ l0 m0, step n l0 m0 → l0 = l ∧ m0 = m) as Hone.
    { unfold step. rewrite Hsucc.
      by intros l0 m0 [= -> ->]%list_elem_of_singleton. }
    split.
    + eapply exec_cons; [|done]. unfold step. rewrite Hsucc. by left.
    + intros ls n' Hls. inversion Hls as [|? l0 m0 ls0 ? Hs Hrest]; subst.
      * left. apply prefix_nil.
      * destruct (Hone l0 m0 Hs) as [-> ->].
        destruct (Hall ls0 n' Hrest) as [Hp | (ls2 & -> & He2)].
        -- left. by apply prefix_cons.
        -- right. by exists ls2.
Qed.

(** One pass of the probe through the idle pipeline: the one way to
    run it. *)
Lemma pass_unique_run rest clk tk rc (t : time.Time * time.Time) :
  unique_run 23
    (mkNet (relays init) (probe init ++ rest) (t.1 :: t.2 :: clk) tk rc)
  = Some (pass_trace init t,
          mkNet (relays init) rest clk (tk ++ [t.1; t.2]) (rc ++ [true])).
Proof.
  destruct t as [t3 t4]. cbn [fst snd].
  change (tk ++ [t3; t4]) with (tk ++ [t3] ++ [t4]).
  rewrite (assoc_L (++) tk [t3] [t4]).
  vm_compute. reflexivity.
Qed.

Lemma idle_no_step clk tk rc :
  successors (mkNet (relays init) [] clk tk rc) = [].
Proof. reflexivity. Qed.


Lemma passes_run (ts : list (time.Time * time.Time)) :
  ∀ tk rc,
    execution
      (mkNet (relays init) (probes init (length ts)) (readings_of ts) tk rc)
      (passes_trace init ts)
      (mkNet (relays init) [] [] (tk ++ readings_of ts)
         (rc ++ replicate (length ts) true)) ∧
    ∀ ls n',
      execution
        (mkNet (relays init) (probes init (length ts)) (readings_of ts)
           tk rc) ls n' →
      ls `prefix_of` passes_trace init ts.
Proof.
  induction ts as [|t ts IH]; intros tk rc.
  - change (probes init (length [])) with (@nil instr).
    change (readings_of []) with (@nil time.Time).
    change (passes_trace init []) with (@nil label).
    change (replicate (length (@nil (time.Time * time.Time))) true)
      with (@nil bool).
    rewrite !app_nil_r. split; [constructor|].
    intros ls n' He. inversion He as [|? l n1 ls0 ? Hs _]; subst; [done|].
    unfold step in Hs. rewrite idle_no_step in Hs.
    by apply elem_of_nil in Hs.
  - change (probes init (length (t :: ts)))
      with (probe init ++ probes init (length ts)).
    change (readings_of (t :: ts)) with (t.1 :: t.2 :: readings_of ts).
    change (passes_trace init (t :: ts))
      with (pass_trace init t ++ passes_trace init ts).
    pose proof (pass_unique_run (probes init (length ts))
                   (readings_of ts) tk rc t) as Hu.
    apply unique_run_sound in Hu as [He Hall].
    destruct (IH (tk ++ [t.1; t.2]) (rc ++ [true])) as [He' Hall'].
    split.
    + replace (tk ++ t.1 :: t.2 :: readings_of ts)
        with ((tk ++ [t.1; t.2]) ++ readings_of ts)
        by by rewrite <- (assoc_L (++)).
      replace (rc ++ replicate (length (t :: ts)) true)
        with ((rc ++ [true]) ++ replicate (length ts) true)
        by by rewrite <- (assoc_L (++)).
      by eapply execution_app.
    + intros ls n' Hls.
      destruct (Hall ls n' Hls) as [Hp | (ls2 & -> & He2)].
      * by apply prefix_app_r.
      * apply prefix_app, (Hall' ls2 n' He2).
Qed.

End Pipeline.

Lemma init_loop_started n :
  ∀ tail rt,
    length (pipeline.started (pipeline.init_loop n tail rt).2)
    = (length (pipeline.started rt) + n)%nat.
Proof.
  induction n as [|n IH]; intros tail rt; simpl; [lia|].
  rewrite IH. simpl. rewrite length_app. simpl. lia.
Qed.

(** C10. [init] starts exactly [numChainRoutines] = 20 relay goroutines,
    in a line from [head] to [tail], each waiting to receive. No step of
    the system starts or ends a goroutine. For any number of passes of
    the chain probe (a clock reading [t3], the token sent on [head], a
    receive from [tail], a clock reading), run one after the other on
    the pipeline as [init] left it, there is one way to run: in each
    pass the token goes over [head], through the 20 relays in order and
    over [tail], and only then the receive of the sampling goroutine and
    its second clock reading happen; after the passes the same 20
    goroutines wait to receive again. The chain duration of a sample is
    the single difference between the reading after the token came back
    and the reading [t3] before it was sent. *)
Theorem chain_probe_through_persistent_pipeline :
  let p := pipeline.init in
  (pipeline.head p = 0%nat ∧ pipeline.tail p = 20%nat ∧
   pipeline.relays p
   = (λ i, pipeline.mkRelay i (S i) None) <$> seq 0 20 ∧
   length (pipeline.relays p) = Z.to_nat numChainRoutines ∧
   ∀ n tail rt,
     length (pipeline.started (pipeline.init_loop n tail rt).2)
     = (length (pipeline.started rt) + n)%nat) ∧
  (∀ n ls n',
     pipeline.execution n ls n' →
     pipeline.wiring (pipeline.goroutines n')
     = pipeline.wiring (pipeline.goroutines n)) ∧
  (∀ ts : list (time.Time * time.Time),
     let n0 :=
       pipeline.mkNet (pipeline.relays p)
         (pipeline.probes p (length ts)) (pipeline.readings_of ts) [] [] in
     let n1 :=
       pipeline.mkNet (pipeline.relays p) [] [] (pipeline.readings_of ts)
         (replicate (length ts) true) in
     pipeline.execution n0 (pipeline.passes_trace p ts) n1 ∧
     pipeline.successors n1 = [] ∧
     ∀ ls n', pipeline.execution n0 ls n' →
              ls `prefix_of` pipeline.passes_trace p ts) ∧
  (∀ t0 t1 t2 t3 t4 : time.Time,
     chain (measure (mkReadings t0 t1 t2 t3 t4)) = time.Sub t4 t3).
Proof.
  cbv zeta. split; [|split; [|split]].
  - split; [reflexivity|]. split; [reflexivity|]. split; [reflexivity|].
    split; [reflexivity|]. intros n tail rt. apply init_loop_started.
  - intros n ls n'. apply execution_wiring.
  - intros ts. destruct (passes_run ts [] []) as [He Hall].
    split; [exact He|]. split; [apply idle_no_step | exact Hall].
  - reflexivity.
Qed.

(** One pass: the run there is, and that it is a prefix of itself. *)
Lemma chain_probe_through_persistent_pipeline_witness :
  let p := pipeline.init in
  let ts := [(at_ns 50005000, at_ns 50045000)] in
  let n0 :=
    pipeline.mkNet (pipeline.relays p) (pipeline.probes p (length ts))
      (pipeline.readings_of ts) [] [] in
  let n1 :=
    pipeline.mkNet (pipeline.relays p) [] [] (pipeline.readings_of ts)
      (replicate (length ts) true) in
  pipeline.execution n0 (pipeline.passes_trace p ts) n1 ∧
  pipeline.passes_trace p ts `prefix_of` pipeline.passes_trace p ts ∧
  pipeline.wiring (pipeline.goroutines n1)
  = pipeline.wiring (pipeline.goroutines n0).
Proof.
  cbv zeta.
  pose proof chain_probe_through_persistent_pipeline as (_ & Hw & Hp & _).
  destruct (Hp [(at_ns 50005000, at_ns 50045000)]) as (He & _ & Hall).
  split; [exact He|]. split; [exact (Hall _ _ He) | exact (Hw _ _ _ He)].
Defined.

(** * Further properties of the code *)

(** ** The measurements of a pass *)

Lemma saturate_id z : in_int64 z → time.saturate z = z.
Proof.
  unfold in_int64, time.saturate. intros Hz.
  destruct (Z.ltb_spec z minInt64); [lia|].
  destruct (Z.ltb_spec maxInt64 z); [lia|done].
Qed.

Lemma saturate_mono a b : a <= b → time.saturate a <= time.saturate b.
Proof.
  unfold time.saturate, minInt64, maxInt64. intros Hab.
  repeat match goal with
         | |- context [?x <? ?y] => destruct (Z.ltb_spec x y)
         end; lia.
Qed.

(** X1. When the five readings of a pass come from a monotonic clock
    that does not go back (readings [m0 <= m1 <= m2 <= m3 <= m4], as
    non-negative [int64] nanoseconds), nothing saturates or wraps: the
    oversleep is [m1 - m0 - 50ms], which is negative exactly when the
    sleep returned early; the three channel measurements are not
    negative; and the four durations and the 50ms of sleep add up to
    the time the whole pass took, [m4 - m0]. *)
Theorem pass_durations_partition_elapsed_time :
  ∀ (w0 w1 w2 w3 w4 m0 m1 m2 m3 m4 : Z),
    0 <= m0 → m0 <= m1 → m1 <= m2 → m2 <= m3 → m3 <= m4 →
    m4 <= maxInt64 →
    let s :=
      measure
        {| r_start := time.mkTime w0 (Some m0);
           r_t1 := time.mkTime w1 (Some m1);
           r_t2 := time.mkTime w2 (Some m2);
           r_t3 := time.mkTime w3 (Some m3);
           r_t4 := time.mkTime w4 (Some m4) |} in
    oversleep s = m1 - m0 - testSleep ∧
    (oversleep s < 0 ↔ m1 - m0 < testSleep) ∧
    bufSend s = m2 - m1 ∧ pingPong s = m3 - m2 ∧ chain s = m4 - m3 ∧
    0 <= bufSend s ∧ 0 <= pingPong s ∧ 0 <= chain s ∧
    oversleep s + testSleep + bufSend s + pingPong s + chain s = m4 - m0.
Proof.
  intros w0 w1 w2 w3 w4 m0 m1 m2 m3 m4 H0 H1 H2 H3 H4 Hmax.
  unfold measure, time.Sub. cbn [oversleep bufSend pingPong chain
    r_start r_t1 r_t2 r_t3 r_t4 time.mono].
  assert (testSleep = 50000000) as Hsleep by reflexivity.
  unfold maxInt64 in Hmax.
  rewrite !saturate_id by (unfold in_int64, minInt64, maxInt64; lia).
  rewrite sub64_small by (unfold in_int64, minInt64, maxInt64; lia).
  lia.
Qed.

Lemma pass_durations_partition_elapsed_time_witness :
  let s := measure (pass 0 5000) in
  oversleep s = 50005000 - 0 - testSleep ∧
  (oversleep s < 0 ↔ 50005000 - 0 < testSleep) ∧
  bufSend s = 50007000 - 50005000 ∧ pingPong s = 50010000 - 50007000 ∧
  chain s = 50050000 - 50010000 ∧
  0 <= bufSend s ∧ 0 <= pingPong s ∧ 0 <= chain s ∧
  oversleep s + testSleep + bufSend s + pingPong s + chain s
  = 50050000 - 0.
Proof.
  apply (pass_durations_partition_elapsed_time
           (63713433600000000000 + 0) (63713433600000000000 + 50005000)
           (63713433600000000000 + 50007000)
           (63713433600000000000 + 50010000)
           (63713433600000000000 + 50050000)
           0 50005000 50007000 50010000 50050000);
    unfold maxInt64; lia.
Defined.

(** ** The table of an empty buffer *)

Lemma rendered_empty t : rendered (empty_buffer t) = [].
Proof.
  unfold rendered, backward.
  change (Z.to_nat historySize) with 100%nat.
  change (seq 0 100) with (0%nat :: seq 1 99).
  rewrite fmap_cons. cbn [take_while]. by rewrite slot_back_empty.
Qed.

(** X2. Before the first pass, whatever the thresholds and the time,
    [Samples] returns the header line alone: a table without data
    rows. *)
Theorem Samples_of_empty_buffer_is_header :
  ∀ (t : thresholds) (now : time.Time),
    Samples (empty_buffer t) now = Some (header +:+ nl) ∧
    data_rows (header +:+ nl) = [].
Proof.
  intros t now. split; [|reflexivity].
  rewrite Samples_spec by apply wf_empty.
  by rewrite rendered_empty.
Qed.

(** ** Thresholds and markers *)

Lemma exceeds_mono t t' s : thresholds_le t t' → exceeds t' s → exceeds t s.
Proof. unfold thresholds_le, exceeds. lia. Qed.

(** X3. Raising thresholds can only take markers away: when every
    threshold of [t] is at most the one of [t'], every data row of the
    table that carries the marker under [t'] carries it under [t], for
    the same buffer and the same time; and the two tables have the same
    number of rows. *)
Theorem raising_thresholds_only_removes_markers :
  ∀ (g : globals) (t t' : thresholds) (now : time.Time),
    wf g → thresholds_le t t' →
    ∃ table table' : string,
      Samples (set_thresholds g t) now = Some table ∧
      Samples (set_thresholds g t') now = Some table' ∧
      length (data_rows table) = length (data_rows table') ∧
      ∀ (i : nat) (line line' : string),
        data_rows table !! i = Some line →
        data_rows table' !! i = Some line' →
        marked line' = true → marked line = true.
Proof.
  intros g t t' now Hg Hle.
  pose proof (wf_set_thresholds g t Hg) as Hgt.
  pose proof (wf_set_thresholds g t' Hg) as Hgt'.
  destruct (Samples_lines _ now Hgt) as (table & Hs & _).
  destruct (Samples_lines _ now Hgt') as (table' & Hs' & _).
  exists table, table'. split; [done|]. split; [done|].
  rewrite (Samples_data_rows _ now table Hgt Hs).
  rewrite (Samples_data_rows _ now table' Hgt' Hs').
  rewrite !rendered_set_thresholds, !length_fmap. split; [done|].
  intros i line line'. rewrite !list_lookup_fmap.
  destruct (rendered g !! i) as [s|]; [|done]. simpl.
  intros [= <-] [= <-]. rewrite !marked_row_text, !overThreshold_exceeds.
  rewrite !thresholds_of_set_thresholds. by apply exceeds_mono.
Qed.

Lemma raising_thresholds_only_removes_markers_witness :
  let t := mkThresholds 1000 10000 10000 100000 in
  let t' := mkThresholds 1000000 10000 10000 100000 in
  let now := at_ns (1 * time.Second) in
  wf after_slow_pass ∧ thresholds_le t t' ∧
  ∃ table table' : string,
    Samples (set_thresholds after_slow_pass t) now = Some table ∧
    Samples (set_thresholds after_slow_pass t') now = Some table' ∧
    length (data_rows table) = length (data_rows table') ∧
    ∀ (i : nat) (line line' : string),
      data_rows table !! i = Some line →
      data_rows table' !! i = Some line' →
      marked line' = true → marked line = true.
Proof.
  cbv zeta.
  assert (wf after_slow_pass) as Hg
    by (split; [reflexivity | by vm_compute]).
  assert (thresholds_le (mkThresholds 1000 10000 10000 100000)
            (mkThresholds 1000000 10000 10000 100000)) as Hle
    by (unfold thresholds_le; simpl; lia).
  split; [exact Hg|]. split; [exact Hle|].
  exact (raising_thresholds_only_removes_markers after_slow_pass _ _
           (at_ns (1 * time.Second)) Hg Hle).
Defined.

(** ** Runs of the loop *)

Section LoopRuns.

Context {W : Type} `{Warner W}.

(** As long as no recorded sample exceeds the thresholds in force, the
    loop keeps [bad] clear and hands every sink back untouched. *)
Lemma quiet_loop (evs : list (event W)) :
  ∀ (st : loop_state),
    wf (pkg st) → bad st = false →
    Forall (λ x, ¬ exceeds x.2 x.1)
      (recorded_with (thresholds_of (pkg st)) evs) →
    ∃ st', loop st evs = Some (st', sinks_of evs) ∧ bad st' = false.
Proof.
  induction evs as [|e evs IH]; intros st Hg Hb Hq.
  - by exists st.
  - destruct e as [r|w now|t]; cbn [loop loop_body recorded_with sinks_of] in *.
    + destruct (collectSample_wf (pkg st) r Hg) as (g' & -> & Hg' & Ht).
      cbn [mbind option_bind].
      apply Forall_cons in Hq as [Hr Hq]. cbn [fst snd] in Hr.
      rewrite <- Ht in Hr, Hq.
      apply overThreshold_not_exceeds in Hr. rewrite Hr, Hb.
      destruct (IH {| pkg := g'; bad := false |}) as (st' & -> & Hb');
        [done..|].
      cbn [mbind option_bind]. by exists st'.
    + rewrite Hb. cbn [mbind option_bind].
      destruct (IH st) as (st' & -> & Hb'); [done..|].
      cbn [mbind option_bind]. by exists st'.
    + cbn [mbind option_bind].
      destruct (IH {| pkg := set_thresholds (pkg st) t; bad := bad st |})
        as (st' & -> & Hb'); [by apply wf_set_thresholds | done | |].
      { cbn [pkg]. by rewrite thresholds_of_set_thresholds. }
      cbn [mbind option_bind]. by exists st'.
Qed.

End LoopRuns.

(** X4. A run of the loop in which no pass measures a sample over the
    thresholds in force never warns: whatever ticks, Checks and
    assignments to the thresholds it is made of, the loop serves it
    without failure, makes no call of [Warningf] - every Check gets its
    sink back as it gave it - and ends with [bad] clear. In particular
    Checks before the first pass are silent. *)
Theorem loop_without_exceeding_sample_never_warns :
  ∀ (W : Type) (Wn : Warner W) (evs : list (event W)),
    Forall (λ x : sample * thresholds, ¬ exceeds x.2 x.1)
      (recorded_with (thresholds_of initial) evs) →
    ∃ st : loop_state,
      loop loop_start evs = Some (st, sinks_of evs) ∧ bad st = false.
Proof.
  intros W Wn evs Hq. by apply (quiet_loop evs loop_start wf_initial).
Qed.

Lemma loop_without_exceeding_sample_never_warns_witness :
  let evs : list (event (list (string * list arg))) :=
    [Check [] (at_ns 0); Tick (pass 0 5000);
     Check [] (at_ns (1 * time.Second))] in
  Forall (λ x : sample * thresholds, ¬ exceeds x.2 x.1)
    (recorded_with (thresholds_of initial) evs) ∧
  ∃ st : loop_state,
    loop loop_start evs = Some (st, sinks_of evs) ∧ bad st = false.
Proof.
  cbv zeta.
  assert (Forall (λ x : sample * thresholds, ¬ exceeds x.2 x.1)
            (recorded_with (W := list (string * list arg))
               (thresholds_of initial)
               [Check [] (at_ns 0); Tick (pass 0 5000);
                Check [] (at_ns (1 * time.Second))])) as Hq.
  { repeat constructor. apply overThreshold_not_exceeds. reflexivity. }
  split; [exact Hq|].
  exact (loop_without_exceeding_sample_never_warns _ recorder _ Hq).
Defined.

(** X5. A pass over threshold followed by a Check: from every state of
    the loop that satisfies the invariant, a tick whose sample exceeds
    the thresholds in force (its start time not being the zero time)
    sets [bad], and the Check that follows makes exactly one call of
    [Warningf], with the table of that moment; the first data row of
    that table is the row of the sample just recorded, and it carries
    the marker. The Check leaves [bad] clear. *)
Theorem slow_pass_then_Check_warns_with_marked_first_row :
  ∀ (W : Type) (Wn : Warner W) (st : loop_state) (r : readings) (w : W)
    (now : time.Time),
    wf (pkg st) →
    started (measure r) = true →
    exceeds (thresholds_of (pkg st)) (measure r) →
    ∃ (st1 st2 : loop_state) (table : string),
      loop_body st (Tick r) = Some (st1, None) ∧
      bad st1 = true ∧
      loop_body st1 (Check w now)
      = Some (st2, Some (Warningf w warning_format
                           [ArgInt 100; ArgString table])) ∧
      Samples (pkg st1) now = Some table ∧
      data_rows table !! 0%nat = Some (row_text (pkg st1) now (measure r)) ∧
      marked (row_text (pkg st1) now (measure r)) = true ∧
      bad st2 = false.
Proof.
  intros W Wn st r w now Hg Hstart Hex.
  destruct (collectSample_wf (pkg st) r Hg) as (g' & Hc & Hg' & Ht).
  assert (overThreshold g' (measure r) = true) as Hover
    by (apply overThreshold_exceeds; by rewrite Ht).
  destruct (Samples_lines g' now Hg') as (table & Hs & _).
  exists {| pkg := g'; bad := true |}, {| pkg := g'; bad := false |}, table.
  cbn [loop_body pkg bad]. rewrite Hc. cbn [mbind option_bind].
  rewrite Hover. split; [done|]. split; [done|].
  unfold Check. cbn [loop_body pkg bad]. rewrite Hs. cbn [mbind option_bind].
  split; [done|]. split; [done|].
  split; [|split; [by rewrite marked_row_text | done]].
  rewrite (Samples_data_rows g' now table Hg' Hs).
  unfold collectSample in Hc.
  destruct (record (pkg st) (measure r)) as [g1|] eqn:Hr; [|done].
  injection Hc as ->.
  unfold rendered, backward.
  change (Z.to_nat historySize) with 100%nat.
  change (seq 0 100) with (0%nat :: seq 1 99).
  rewrite fmap_cons. cbn [take_while].
  rewrite (slot_back_record (pkg st) (measure r) g' 0 Hg Hr)
    by (unfold historySize; lia).
  by rewrite Hstart.
Qed.

Lemma slow_pass_then_Check_warns_with_marked_first_row_witness :
  let r := pass 0 22000 in
  let now := at_ns (1 * time.Second) in
  wf (pkg loop_start) ∧
  started (measure r) = true ∧
  exceeds (thresholds_of (pkg loop_start)) (measure r) ∧
  ∃ (st1 st2 : loop_state) (table : string),
    loop_body loop_start (Tick r) = Some (st1, None) ∧
    bad st1 = true ∧
    loop_body st1 (Check (W := list (string * list arg)) [] now)
    = Some (st2, Some (Warningf [] warning_format
                         [ArgInt 100; ArgString table])) ∧
    Samples (pkg st1) now = Some table ∧
    data_rows table !! 0%nat = Some (row_text (pkg st1) now (measure r)) ∧
    marked (row_text (pkg st1) now (measure r)) = true ∧
    bad st2 = false.
Proof.
  cbv zeta.
  assert (wf (pkg loop_start)) as Hg
    by (split; [reflexivity | by vm_compute]).
  assert (started (measure (pass 0 22000)) = true) as Hs by reflexivity.
  assert (exceeds (thresholds_of (pkg loop_start)) (measure (pass 0 22000)))
    as Hex by (apply overThreshold_exceeds; reflexivity).
  split; [exact Hg|]. split; [exact Hs|]. split; [exact Hex|].
  exact (slow_pass_then_Check_warns_with_marked_first_row _ recorder
           loop_start (pass 0 22000) [] (at_ns (1 * time.Second))
           Hg Hs Hex).
Defined.

(** ** A full turn of the buffer *)

(** X6. From every buffer state that satisfies the invariant, recording
    100 samples or more replaces all the buffer held: the 100 slots,
    walked back from the cursor, are then the last 100 samples
    recorded, newest first; the cursor has advanced by the number of
    samples modulo 100 (after exactly 100 it is back where it was); and
    the state reached is the same from any other state with the same
    thresholds and cursor. *)
Theorem full_turn_overwrites_buffer :
  ∀ (g : globals) (l : list sample),
    wf g → (100 ≤ length l)%nat →
    ∃ g' : globals,
      record_all g l = Some g' ∧
      backward g' = take 100 (reverse l) ∧
      nextIndex g' = (nextIndex g + Z.of_nat (length l)) mod 100 ∧
      (length l = 100%nat → nextIndex g' = nextIndex g) ∧
      thresholds_of g' = thresholds_of g ∧
      ∀ g0 : globals,
        wf g0 → thresholds_of g0 = thresholds_of g →
        nextIndex g0 = nextIndex g →
        record_all g0 l = Some g'.
Proof.
  intros g l Hg Hlen.
  assert (∀ g1 g1', wf g1 → record_all g1 l = Some g1' →
            (∀ k, (k < Z.to_nat historySize)%nat →
               slot_back g1' k =
                 match reverse l !! k with
                 | Some s => s
                 | None => slot_back g1 (k - length l)
                 end) →
            backward g1' = take 100 (reverse l)) as Hback.
  { intros g1 g1' Hg1 Hr1 Hs1.
    apply list_eq_same_length with 100%nat.
    - rewrite length_take, length_reverse. lia.
    - apply backward_length.
    - intros i x y Hi. rewrite backward_lookup by done.
      intros [= <-]. rewrite lookup_take_lt by done. intros Hy.
      by rewrite (Hs1 i Hi), Hy. }
  destruct (record_all_spec l g Hg) as (g' & Hr & Hg' & Ht & Hn & Hs).
  exists g'. split; [done|]. split; [exact (Hback g g' Hg Hr Hs)|].
  split; [exact Hn|]. split.
  { intros H100. rewrite Hn, H100. unfold historySize.
    rewrite <- (Z.mod_small (nextIndex g) 100) at 2 by apply Hg.
    change (Z.of_nat 100) with (1 * 100). by rewrite Z_mod_plus_full. }
  split; [done|].
  intros g0 Hg0 Ht0 Hn0.
  destruct (record_all_spec l g0 Hg0) as (g0' & Hr0 & Hg0' & Ht0' & Hn0' & Hs0).
  rewrite Hr0. f_equal. apply globals_ext; try done.
  - by rewrite Ht, Ht0', Ht0.
  - by rewrite Hn, Hn0', Hn0.
  - rewrite (Hback g g' Hg Hr Hs). exact (Hback g0 g0' Hg0 Hr0 Hs0).
Qed.

Lemma full_turn_overwrites_buffer_witness :
  wf after_slow_pass ∧ (100 ≤ length (passes 1 100))%nat ∧
  ∃ g' : globals,
    record_all after_slow_pass (passes 1 100) = Some g' ∧
    backward g' = take 100 (reverse (passes 1 100)) ∧
    nextIndex g'
    = (nextIndex after_slow_pass + Z.of_nat (length (passes 1 100))) mod 100 ∧
    (length (passes 1 100) = 100%nat →
     nextIndex g' = nextIndex after_slow_pass) ∧
    thresholds_of g' = thresholds_of after_slow_pass ∧
    ∀ g0 : globals,
      wf g0 → thresholds_of g0 = thresholds_of after_slow_pass →
      nextIndex g0 = nextIndex after_slow_pass →
      record_all g0 (passes 1 100) = Some g'.
Proof.
  assert (wf after_slow_pass) as Hg
    by (split; [reflexivity | by vm_compute]).
  assert (100 ≤ length (passes 1 100))%nat as Hlen by (vm_compute; lia).
  split; [exact Hg|]. split; [exact Hlen|].
  exact (full_turn_overwrites_buffer after_slow_pass (passes 1 100) Hg Hlen).
Defined.

(** ** The order of the ages *)

Lemma take_while_lookup {A} (p : A → bool) l i x :
  take_while p l !! i = Some x → l !! i = Some x.
Proof.
  revert i. induction l as [|y l IH]; intros i; simpl; [done|].
  destruct (p y); [|done]. destruct i as [|i]; simpl; [done|]. apply IH.
Qed.

(** X7. When the passes recorded into an empty buffer started one after
    the other by the monotonic clock, the table lists them by age,
    youngest first: the ages its rows show, [now.Sub(s.start)], never
    decrease from one row to the next. *)
Theorem table_rows_ordered_by_age :
  ∀ (t : thresholds) (l : list sample) (now : time.Time) (mn : Z),
    starts_in_order l →
    time.mono now = Some mn →
    ∃ g : globals,
      record_all (empty_buffer t) l = Some g ∧
      ∀ (i j : nat) (a b : time.Duration),
        (i < j)%nat →
        ages g now !! i = Some a → ages g now !! j = Some b → a <= b.
Proof.
  intros t l now mn Hord Hnow.
  destruct (record_all_Samples t l now) as (g & table & Hr & _).
  exists g. split; [done|].
  intros i j a b Hij. unfold ages.
  rewrite (rendered_record_all t l g Hr), !list_lookup_fmap.
  destruct (take_while _ _ !! i) as [si|] eqn:Hi; [|done].
  destruct (take_while _ _ !! j) as [sj|] eqn:Hj; [|done].
  simpl. intros [= <-] [= <-].
  apply take_while_lookup, lookup_take_Some in Hi as [Hi _], Hj as [Hj _].
  apply reverse_lookup_Some in Hi as [Hi Hil], Hj as [Hj Hjl].
  destruct (Hord (length l - S j)%nat (length l - S i)%nat sj si)
    as (m & m' & Hm & Hm' & Hle); [lia|done..|].
  unfold time.Sub. rewrite Hnow, Hm, Hm'. apply saturate_mono. lia.
Qed.

Lemma table_rows_ordered_by_age_witness :
  starts_in_order (passes 0 3) ∧
  time.mono (at_ns (3 * time.Second)) = Some (3 * time.Second) ∧
  ∃ g : globals,
    record_all (empty_buffer (thresholds_of initial)) (passes 0 3) = Some g ∧
    ∀ (i j : nat) (a b : time.Duration),
      (i < j)%nat →
      ages g (at_ns (3 * time.Second)) !! i = Some a →
      ages g (at_ns (3 * time.Second)) !! j = Some b → a <= b.
Proof.
  assert (starts_in_order (passes 0 3)) as Hord.
  { intros i j s s' Hij Hi Hj.
    destruct i as [|[|[|i]]], j as [|[|[|j]]];
      try lia; try discriminate;
      injection Hi as <-; injection Hj as <-;
      eexists _, _; (split; [reflexivity|]); (split; [reflexivity|]);
      by vm_compute. }
  split; [exact Hord|]. split; [reflexivity|].
  exact (table_rows_ordered_by_age (thresholds_of initial) (passes 0 3)
           (at_ns (3 * time.Second)) (3 * time.Second) Hord eq_refl).
Defined.

(** ** The width of a row *)

Lemma RuneCount_app a b :
  fmt.RuneCount (a +:+ b) = fmt.RuneCount a + fmt.RuneCount b.
Proof.
  induction a as [|x a IH]; [done|]. rewrite append_cons. simpl.
  rewrite IH. lia.
Qed.

Lemma RuneCount_nonneg a : 0 <= fmt.RuneCount a.
Proof.
  induction a as [|x a IH]; simpl; [lia|].
  destruct (fmt.is_continuation x); lia.
Qed.

Lemma RuneCount_spaces n : fmt.RuneCount (fmt.spaces n) = Z.of_nat n.
Proof. induction n as [|n IH]; [done|]. simpl fmt.spaces. simpl. lia. Qed.

(** Padding fills up to the width and never cuts. *)
Lemma RuneCount_pad wid s :
  fmt.RuneCount (fmt.pad wid s) = Z.max wid (fmt.RuneCount s).
Proof.
  unfold fmt.pad. rewrite RuneCount_app, RuneCount_spaces.
  pose proof (RuneCount_nonneg s). lia.
Qed.

Lemma digit_rune d : 0 <= d < 10 → fmt.is_continuation (time.digit d) = false.
Proof.
  intros Hd.
  assert (d = 0 ∨ d = 1 ∨ d = 2 ∨ d = 3 ∨ d = 4 ∨ d = 5 ∨ d = 6 ∨ d = 7 ∨
          d = 8 ∨ d = 9) as Hc by lia.
  repeat (destruct Hc as [-> | Hc]; [reflexivity|]). by subst.
Qed.

Lemma RuneCount_digit v buf :
  fmt.RuneCount (String (time.digit (v mod 10)) buf) = 1 + fmt.RuneCount buf.
Proof.
  simpl. by rewrite digit_rune by (apply Z.mod_pos_bound; lia).
Qed.

(** A number below [10^k] is written with at most [k] digits. *)
Lemma RuneCount_fmtInt_loop fuel :
  ∀ (k : nat) buf v,
    0 <= v < 10 ^ Z.of_nat k →
    fmt.RuneCount (time.fmtInt_loop fuel buf v)
    <= fmt.RuneCount buf + Z.of_nat k.
Proof.
  induction fuel as [|fuel IH]; intros k buf v Hv; simpl; [lia|].
  destruct (Z.ltb_spec 0 v); [|lia].
  destruct k as [|k]; [simpl in Hv; lia|].
  etrans; [apply (IH k)|].
  - rewrite Nat2Z.inj_succ, Z.pow_succ_r in Hv by lia.
    split; [apply Z.div_pos; lia|].
    apply Z.div_lt_upper_bound; lia.
  - rewrite RuneCount_digit. lia.
Qed.

Lemma RuneCount_fmtInt (k : nat) buf v :
  (1 ≤ k)%nat → 0 <= v < 10 ^ Z.of_nat k →
  fmt.RuneCount (time.fmtInt buf v) <= fmt.RuneCount buf + Z.of_nat k.
Proof.
  intros Hk Hv. unfold time.fmtInt. destruct (v =? 0).
  - change (fmt.RuneCount (String "0" buf)) with (1 + fmt.RuneCount buf). lia.
  - by apply RuneCount_fmtInt_loop.
Qed.

Lemma fmtFrac_loop_spec prec :
  ∀ buf print v,
    0 <= v →
    let r := time.fmtFrac_loop prec buf print v in
    r.2 = v / 10 ^ Z.of_nat prec ∧
    fmt.RuneCount r.1.1 <= fmt.RuneCount buf + Z.of_nat prec.
Proof.
  induction prec as [|prec IH]; intros buf print v Hv.
  - simpl. rewrite Z.div_1_r. lia.
  - cbn [time.fmtFrac_loop]. cbv zeta.
    match goal with
    | |- context [time.fmtFrac_loop prec ?b ?p (v / 10)] =>
        destruct (IH b p (v / 10)) as [Hq Hc]; [apply Z.div_pos; lia|];
        rewrite Hq; split;
          [ rewrite Nat2Z.inj_succ, Z.pow_succ_r by lia;
            by rewrite Z.div_div by lia
          | etrans; [exact Hc|] ]
    end.
    destruct (print || negb (v mod 10 =? 0)).
    + rewrite RuneCount_digit. lia.
    + lia.
Qed.

Lemma fmtFrac_spec buf v prec :
  0 <= v →
  (time.fmtFrac buf v prec).2 = v / 10 ^ Z.of_nat prec ∧
  fmt.RuneCount (time.fmtFrac buf v prec).1
  <= fmt.RuneCount buf + Z.of_nat prec + 1.
Proof.
  intros Hv. unfold time.fmtFrac.
  destruct (fmtFrac_loop_spec prec buf false v Hv) as [Hq Hc].
  destruct (time.fmtFrac_loop prec buf false v) as [[b p] u].
  cbn [fst snd] in *. split; [done|].
  destruct p; [|lia].
  change (fmt.RuneCount (String "." b)) with (1 + fmt.RuneCount b). lia.
Qed.

(** A duration under a millisecond, of either sign, is written with at
    most 10 runes, the micro sign being one. *)
Lemma RuneCount_String_under_ms d :
  - time.Millisecond < d < time.Millisecond →
  fmt.RuneCount (time.String_ d) <= 10.
Proof.
  intros Hd. unfold time.String_. cbv zeta.
  assert (time.Millisecond = 1000000) as Hms by reflexivity.
  assert (time.Microsecond = 1000) as Hus by reflexivity.
  assert (time.Second = 1000000000) as Hs by reflexivity.
  set (u := if d <? 0 then (- (d mod 2 ^ 64)) mod 2 ^ 64 else d mod 2 ^ 64).
  assert (u = Z.abs d) as Hu.
  { unfold u. destruct (Z.ltb_spec d 0).
    - replace (d mod 2 ^ 64) with (d + 2 ^ 64)
        by (apply Z.mod_unique with (-1); lia).
      symmetry. apply Z.mod_unique with (-1); lia.
    - rewrite Z.mod_small; lia. }
  assert (0 <= u < 1000000) as Hub by lia.
  assert (∀ (neg : bool) buf,
            fmt.RuneCount (if neg then String "-" buf else buf)
            <= 1 + fmt.RuneCount buf) as Hsign.
  { intros [] buf; [|lia].
    change (fmt.RuneCount (String "-" buf)) with (1 + fmt.RuneCount buf).
    lia. }
  destruct (Z.ltb_spec u time.Second); [|lia].
  destruct (u =? 0); [by vm_compute|].
  destruct (Z.ltb_spec u time.Microsecond);
    [|destruct (Z.ltb_spec u time.Millisecond); [|lia]].
  - destruct (fmtFrac_spec "ns" u 0 ltac:(lia)) as [Hq Hc].
    destruct (time.fmtFrac "ns" u 0) as [b u']. cbn [fst snd] in *.
    change (10 ^ Z.of_nat 0) with 1 in Hq. rewrite Z.div_1_r in Hq.
    etrans; [apply Hsign|].
    assert (0 <= u' < 10 ^ Z.of_nat 3) as Hu'
      by (change (10 ^ Z.of_nat 3) with 1000; lia).
    pose proof (RuneCount_fmtInt 3 b u' ltac:(lia) Hu') as Hi.
    change (fmt.RuneCount "ns") with 2 in Hc. lia.
  - destruct (fmtFrac_spec (time.micro "s") u 3 ltac:(lia)) as [Hq Hc].
    destruct (time.fmtFrac (time.micro "s") u 3) as [b u'].
    cbn [fst snd] in *.
    change (10 ^ Z.of_nat 3) with 1000 in Hq.
    etrans; [apply Hsign|].
    assert (0 <= u' < 10 ^ Z.of_nat 3) as Hu'.
    { rewrite Hq. change (10 ^ Z.of_nat 3) with 1000.
      split; [apply Z.div_pos; lia|].
      apply Z.div_lt_upper_bound; lia. }
    pose proof (RuneCount_fmtInt 3 b u' ltac:(lia) Hu') as Hi.
    change (fmt.RuneCount (time.micro "s")) with 2 in Hc. lia.
Qed.

Lemma RuneCount_verb_v_under_ms d :
  - time.Millisecond < d < time.Millisecond →
  fmt.RuneCount (fmt.verb_v 10 d) = 10.
Proof.
  intros Hd. unfold fmt.verb_v. rewrite RuneCount_pad.
  pose proof (RuneCount_String_under_ms d Hd). lia.
Qed.

Lemma RuneCount_verb_v_ge d : 10 <= fmt.RuneCount (fmt.verb_v 10 d).
Proof. unfold fmt.verb_v. rewrite RuneCount_pad. lia. Qed.

Lemma RuneCount_verb_f_ge x : 5 <= fmt.RuneCount (fmt.verb_f 5 1 x).
Proof. unfold fmt.verb_f. rewrite RuneCount_pad. lia. Qed.

Lemma RuneCount_row_text g now s :
  fmt.RuneCount (row_text g now s)
  = 21 + fmt.RuneCount (fmt.verb_f 5 1 (time.Seconds (time.Sub now (start s))))
    + fmt.RuneCount (fmt.verb_v 10 (oversleep s))
    + fmt.RuneCount (fmt.verb_v 10 (bufSend s))
    + fmt.RuneCount (fmt.verb_v 10 (pingPong s))
    + fmt.RuneCount (fmt.verb_v 10 (chain s))
    + (if overThreshold g s then 5 else 0).
Proof.
  unfold row_text. cbv zeta. rewrite !RuneCount_app.
  change (fmt.RuneCount "| ") with 2.
  change (fmt.RuneCount "s ago | ") with 8.
  change (fmt.RuneCount " | ") with 3.
  change (fmt.RuneCount " |") with 2.
  destruct (overThreshold g s).
  - change (fmt.RuneCount " <---") with 5. lia.
  - change (fmt.RuneCount "") with 0. lia.
Qed.

(** X8. No row of the table is narrower than the header (66 runes): the
    columns are padded, never cut. When the four durations of a sample
    are under a millisecond, of either sign, each of them fills exactly
    its 10 runes - the micro sign of the unit counting as one - so the
    row is as wide as the header but for what the age takes beyond its
    5 runes and for the 5 runes of the marker. *)
Theorem row_width_matches_header :
  ∀ (g : globals) (now : time.Time) (s : sample),
    let age := fmt.verb_f 5 1 (time.Seconds (time.Sub now (start s))) in
    let mark := if overThreshold g s then 5 else 0 in
    fmt.RuneCount header = 66 ∧
    fmt.RuneCount header + mark <= fmt.RuneCount (row_text g now s) ∧
    5 <= fmt.RuneCount age ∧
    (- time.Millisecond < oversleep s < time.Millisecond →
     - time.Millisecond < bufSend s < time.Millisecond →
     - time.Millisecond < pingPong s < time.Millisecond →
     - time.Millisecond < chain s < time.Millisecond →
     fmt.RuneCount (row_text g now s)
     = fmt.RuneCount header + (fmt.RuneCount age - 5) + mark).
Proof.
  intros g now s. cbv zeta.
  assert (fmt.RuneCount header = 66) as Hh by reflexivity.
  rewrite Hh, RuneCount_row_text.
  pose proof (RuneCount_verb_f_ge (time.Seconds (time.Sub now (start s)))).
  pose proof (RuneCount_verb_v_ge (oversleep s)).
  pose proof (RuneCount_verb_v_ge (bufSend s)).
  pose proof (RuneCount_verb_v_ge (pingPong s)).
  pose proof (RuneCount_verb_v_ge (chain s)).
  split; [done|]. split; [lia|]. split; [done|].
  intros Ho Hb Hp Hc.
  rewrite !RuneCount_verb_v_under_ms by done. lia.
Qed.

Lemma row_width_matches_header_witness :
  let g := after_slow_pass in
  let now := at_ns (1 * time.Second) in
  let s := measure (pass 0 22000) in
  let age := fmt.verb_f 5 1 (time.Seconds (time.Sub now (start s))) in
  let mark := if overThreshold g s then 5 else 0 in
  - time.Millisecond < oversleep s < time.Millisecond ∧
  - time.Millisecond < bufSend s < time.Millisecond ∧
  - time.Millisecond < pingPong s < time.Millisecond ∧
  - time.Millisecond < chain s < time.Millisecond ∧
  fmt.RuneCount (row_text g now s)
  = fmt.RuneCount header + (fmt.RuneCount age - 5) + mark.
Proof.
  cbv zeta.
  assert (- time.Millisecond < oversleep (measure (pass 0 22000))
          < time.Millisecond) as H1 by by vm_compute.
  assert (- time.Millisecond < bufSend (measure (pass 0 22000))
          < time.Millisecond) as H2 by by vm_compute.
  assert (- time.Millisecond < pingPong (measure (pass 0 22000))
          < time.Millisecond) as H3 by by vm_compute.
  assert (- time.Millisecond < chain (measure (pass 0 22000))
          < time.Millisecond) as H4 by by vm_compute.
  split; [exact H1|]. split; [exact H2|]. split; [exact H3|].
  split; [exact H4|].
  exact (proj2 (proj2 (proj2
           (row_width_matches_header after_slow_pass
              (at_ns (1 * time.Second)) (measure (pass 0 22000)))))
           H1 H2 H3 H4).
Defined.

(** ** Transition systems *)

Section RunsProofs.

Context {State Label : Type} (successors : State → list (Label * State)).

Lemma all_runs_step k n l n1 x :
  (l, n1) ∈ successors n →
  x ∈ all_runs successors k n1 →
  (l :: x.1, x.2) ∈ all_runs successors (S k) n.
Proof.
  intros Hs Hx. cbn [all_runs].
  destruct (successors n) as [|[l0 n0] succs] eqn:Hsucc;
    [by apply elem_of_nil in Hs|].
  apply list_elem_of_bind. exists (l, n1). split; [|done].
  apply list_elem_of_fmap. by exists x.
Qed.

(** Each run explored is an execution. *)
Lemma all_runs_run k :
  ∀ n x, x ∈ all_runs successors k n → run successors n x.1 x.2.
Proof.
  induction k as [|k IH]; intros n x Hx.
  - apply list_elem_of_singleton in Hx as ->. constructor.
  - cbn [all_runs] in Hx.
    destruct (successors n) as [|[l0 n0] succs] eqn:Hsucc.
    + apply list_elem_of_singleton in Hx as ->. constructor.
    + apply list_elem_of_bind in Hx as ([l n1] & Hx & Hl).
      apply list_elem_of_fmap in Hx as (y & -> & Hy). cbn [fst snd].
      eapply run_cons; [|by apply IH]. by rewrite Hsucc.
Qed.

Lemma all_runs_inhabited k : ∀ n, ∃ x, x ∈ all_runs successors k n.
Proof.
  induction k as [|k IH]; intros n.
  - exists ([], n). by left.
  - destruct (successors n) as [|[l0 n0] succs] eqn:Hsucc.
    + exists ([], n). cbn [all_runs]. rewrite Hsucc. by left.
    + destruct (IH n0) as [x Hx]. exists (l0 :: x.1, x.2).
      apply (all_runs_step k n l0 n0 x); [|done]. rewrite Hsucc. by left.
Qed.

(** The runs explored cover every execution: an execution stops on the
    way of a run explored, which goes on from there, or goes beyond a
    run of [k] steps. *)
Lemma all_runs_cover k :
  ∀ n ls n',
    run successors n ls n' →
    (∃ x ls', x ∈ all_runs successors k n ∧ x.1 = ls ++ ls' ∧
              run successors n' ls' x.2) ∨
    (∃ x ls2, x ∈ all_runs successors k n ∧ length x.1 = k ∧
              ls = x.1 ++ ls2 ∧ run successors x.2 ls2 n').
Proof.
  induction k as [|k IH]; intros n ls n' He.
  - right. exists ([], n), ls. split; [by left|]. by split.
  - inversion He as [|? l n1 ls0 ? Hs Hrest]; subst.
    + left. destruct (all_runs_inhabited (S k) n') as [x Hx].
      exists x, x.1. split; [done|]. split; [done|].
      by apply all_runs_run in Hx.
    + destruct (IH n1 ls0 n' Hrest)
        as [(x & ls' & Hx & Hx1 & Hx2) | (x & ls2 & Hx & Hk & Hx1 & Hx2)].
      * left. exists (l :: x.1, x.2), ls'.
        split; [by apply (all_runs_step k n l n1 x)|]. split; [|done].
        simpl. by rewrite Hx1.
      * right. exists (l :: x.1, x.2), ls2.
        split; [by apply (all_runs_step k n l n1 x)|]. simpl.
        split; [by rewrite Hk|]. split; [|done]. by rewrite Hx1.
Qed.

Lemma run_app n ls1 n1 ls2 n2 :
  run successors n ls1 n1 → run successors n1 ls2 n2 →
  run successors n (ls1 ++ ls2) n2.
Proof.
  induction 1 as [|n l n1 ls n1' Hs _ IH]; intros H2; [done|].
  simpl. eapply run_cons; [done|]. by apply IH.
Qed.

Lemma stuck_run n ls n' :
  successors n = [] → run successors n ls n' → ls = [] ∧ n' = n.
Proof.
  intros Hn He. inversion He as [|? l n1 ls0 ? Hs _]; subst; [done|].
  rewrite Hn in Hs. by apply elem_of_nil in Hs.
Qed.

End RunsProofs.

(** ** The goroutines of a whole pass *)

(** One pass from the idle system: the two ways there are to run it. *)
Lemma pass_all_runs rest clk tk (r : readings) :
  all_runs goroutines.successors 30
    (goroutines.mkNet goroutines.init []
       (goroutines.collectSample_body ++ rest)
       (goroutines.clock_of r ++ clk) tk)
  = [(goroutines.pass_trace_late r,
      goroutines.mkNet goroutines.init [] rest clk
        (tk ++ goroutines.clock_of r));
     (goroutines.pass_trace_early r,
      goroutines.mkNet goroutines.init [] rest clk
        (tk ++ goroutines.clock_of r))].
Proof.
  destruct r as [t0 t1 t2 t3 t4].
  replace (tk ++ goroutines.clock_of (mkReadings t0 t1 t2 t3 t4))
    with (((((tk ++ [t0]) ++ [t1]) ++ [t2]) ++ [t3]) ++ [t4])
    by (by rewrite <- !(assoc_L (++))).
  vm_compute. reflexivity.
Qed.

Lemma idle_stuck clk tk :
  goroutines.successors (goroutines.mkNet goroutines.init [] [] clk tk) = [].
Proof. reflexivity. Qed.

(** From the start of any number of passes, whatever has been run can
    be run to the end. *)
Lemma passes_complete (rs : list readings) :
  ∀ tk ls n',
    run goroutines.successors
      (goroutines.mkNet goroutines.init []
         (mjoin (replicate (length rs) goroutines.collectSample_body))
         (rs ≫= goroutines.clock_of) tk) ls n' →
    ∃ ls',
      run goroutines.successors n' ls'
        (goroutines.mkNet goroutines.init [] [] []
           (tk ++ rs ≫= goroutines.clock_of)) ∧
      (length ls + length ls' = 30 * length rs)%nat.
Proof.
  induction rs as [|r rs IH]; intros tk ls n' He.
  - change (mjoin (replicate (length (@nil readings))
                     goroutines.collectSample_body))
      with (@nil goroutines.instr) in He.
    change (@nil readings ≫= goroutines.clock_of)
      with (@nil time.Time) in *.
    rewrite app_nil_r.
    apply stuck_run in He as [-> ->]; [|apply idle_stuck].
    exists []. split; [constructor | done].
  - change (mjoin (replicate (length (r :: rs)) goroutines.collectSample_body))
      with (goroutines.collectSample_body
            ++ mjoin (replicate (length rs) goroutines.collectSample_body))
      in He.
    change ((r :: rs) ≫= goroutines.clock_of)
      with (goroutines.clock_of r ++ rs ≫= goroutines.clock_of) in *.
    rewrite (assoc_L (++)).
    set (n1 := goroutines.mkNet goroutines.init []
                 (mjoin (replicate (length rs) goroutines.collectSample_body))
                 (rs ≫= goroutines.clock_of)
                 (tk ++ goroutines.clock_of r)).
    assert (∀ x, x ∈ all_runs goroutines.successors 30
                   (goroutines.mkNet goroutines.init []
                      (goroutines.collectSample_body
                       ++ mjoin (replicate (length rs)
                                   goroutines.collectSample_body))
                      (goroutines.clock_of r ++ rs ≫= goroutines.clock_of)
                      tk) →
                 x.2 = n1 ∧ length x.1 = 30%nat) as Hruns.
    { intros x. rewrite pass_all_runs.
      intros [->|[->|[]%elem_of_nil]%elem_of_cons]%elem_of_cons;
        (split; [reflexivity|]); by destruct r. }
    destruct (all_runs_cover goroutines.successors 30 _ _ _ He)
      as [(x & ls' & Hx & Hx1 & Hx2) | (x & ls2 & Hx & _ & Hx1 & Hx2)];
      destruct (Hruns x Hx) as [Hn1 Hlen].
    + rewrite Hn1 in Hx2.
      destruct (IH (tk ++ goroutines.clock_of r) [] n1) as (ls'' & He'' & Hl'');
        [constructor|].
      exists (ls' ++ ls''). split; [by eapply run_app|].
      rewrite Hx1, length_app in Hlen. rewrite length_app.
      cbn [length] in Hl'' |- *. lia.
    + rewrite Hn1 in Hx2.
      destruct (IH (tk ++ goroutines.clock_of r) ls2 n' Hx2)
        as (ls'' & He'' & Hl'').
      exists ls''. split; [done|].
      rewrite Hx1, length_app, Hlen. cbn [length]. lia.
Qed.

Lemma samples_taken_clock (rs : list readings) :
  goroutines.samples_taken (length rs) (rs ≫= goroutines.clock_of)
  = measure <$> rs.
Proof.
  induction rs as [|r rs IH]; [done|].
  destruct r as [t0 t1 t2 t3 t4].
  change ((mkReadings t0 t1 t2 t3 t4 :: rs) ≫= goroutines.clock_of)
    with (t0 :: t1 :: t2 :: t3 :: t4 :: rs ≫= goroutines.clock_of).
  cbn [length goroutines.samples_taken]. by rewrite IH.
Qed.

(** X9. The passes of [collectSample] never hang on their channels, and
    no schedule changes what they measure. Start any number of passes
    on the goroutines as [init] left them (the 20 relays and
    [channelHelper] waiting, the buffer of [bufc] empty), with any
    readings to come from the clock. Then whatever steps have been
    taken, in whatever order the goroutines ran, the rest can always be
    run, and every run ends, after 30 steps for each pass, in the same
    state: nothing left to do and no step possible, all goroutines
    waiting again, the buffer empty, and the readings taken from the
    clock in order, so that the samples of the passes are [measure] of
    their five readings. *)
Theorem every_schedule_completes_the_passes :
  ∀ (rs : list readings),
    let cl := rs ≫= goroutines.clock_of in
    let n0 := goroutines.start (length rs) cl in
    let n1 := goroutines.finish cl in
    (∀ ls n',
       run goroutines.successors n0 ls n' →
       ∃ ls',
         run goroutines.successors n' ls' n1 ∧
         (length ls + length ls' = 30 * length rs)%nat) ∧
    goroutines.successors n1 = [] ∧
    goroutines.goroutines n1 = goroutines.goroutines n0 ∧
    goroutines.queue n1 = [] ∧
    goroutines.samples_taken (length rs) (goroutines.taken n1)
    = measure <$> rs.
Proof.
  intros rs. cbv zeta. split; [|split; [|split; [|split]]].
  - intros ls n' He. exact (passes_complete rs [] ls n' He).
  - apply idle_stuck.
  - unfold goroutines.start, goroutines.finish.
    cbn [goroutines.goroutines]. exact eq_refl.
  - unfold goroutines.finish. cbn [goroutines.queue]. exact eq_refl.
  - unfold goroutines.finish. cbn [goroutines.taken].
    apply samples_taken_clock.
Qed.

Lemma every_schedule_completes_the_passes_witness :
  let rs := [pass 0 5000; pass 1 22000] in
  let cl := rs ≫= goroutines.clock_of in
  let n0 := goroutines.start (length rs) cl in
  let n1 := goroutines.finish cl in
  run goroutines.successors n0 [] n0 ∧
  ∃ ls',
    run goroutines.successors n0 ls' n1 ∧
    (length (@nil goroutines.label) + length ls' = 30 * length rs)%nat.
Proof.
  cbv zeta. split; [constructor|].
  apply (proj1 (every_schedule_completes_the_passes
                  [pass 0 5000; pass 1 22000])).
  constructor.
Defined.

(** X10. One pass can run in two ways only, which differ in one place:
    [channelHelper] takes the token out of the buffer of [bufc] after
    the sampling goroutine has read [t2], or before. In both, the send
    on [bufc] comes right after the reading [t1] and waits for no other
    goroutine; the receive from [unbufc] comes after the helper took
    the token, and the reading [t3] after that receive; then the token
    goes over [head], through the 20 relays and over [tail] before the
    last reading. Every execution of the pass is the beginning of one
    of the two. *)
Theorem pass_runs_in_two_ways :
  ∀ (r : readings),
    let n0 := goroutines.start 1 (goroutines.clock_of r) in
    let n1 := goroutines.finish (goroutines.clock_of r) in
    run goroutines.successors n0 (goroutines.pass_trace_late r) n1 ∧
    run goroutines.successors n0 (goroutines.pass_trace_early r) n1 ∧
    ∀ ls n',
      run goroutines.successors n0 ls n' →
      ls `prefix_of` goroutines.pass_trace_late r ∨
      ls `prefix_of` goroutines.pass_trace_early r.
Proof.
  intros r. cbv zeta.
  pose proof (pass_all_runs [] [] [] r) as Hruns.
  change (goroutines.mkNet goroutines.init []
            (goroutines.collectSample_body ++ [])
            (goroutines.clock_of r ++ []) [])
    with (goroutines.start 1 (goroutines.clock_of r)) in Hruns.
  change (goroutines.mkNet goroutines.init [] [] []
            ([] ++ goroutines.clock_of r))
    with (goroutines.finish (goroutines.clock_of r)) in Hruns.
  split; [|split].
  - apply (all_runs_run goroutines.successors 30 _
             (goroutines.pass_trace_late r, _)).
    rewrite Hruns. by left.
  - apply (all_runs_run goroutines.successors 30 _
             (goroutines.pass_trace_early r, _)).
    rewrite Hruns. right. by left.
  - intros ls n' He.
    assert (∀ x, x ∈ all_runs goroutines.successors 30
                   (goroutines.start 1 (goroutines.clock_of r)) →
              (x.1 = goroutines.pass_trace_late r ∨
               x.1 = goroutines.pass_trace_early r) ∧
              x.2 = goroutines.finish (goroutines.clock_of r)) as Hx.
    { intros x. rewrite Hruns.
      intros [->|[->|[]%elem_of_nil]%elem_of_cons]%elem_of_cons; auto. }
    destruct (all_runs_cover goroutines.successors 30 _ _ _ He)
      as [(x & ls' & Hin & Hx1 & _) | (x & ls2 & Hin & _ & Hx1 & Hx2)];
      destruct (Hx x Hin) as [Htr Hfin].
    + destruct Htr as [<-|<-]; [left | right]; rewrite Hx1;
        by apply prefix_app_r.
    + rewrite Hfin in Hx2.
      apply stuck_run in Hx2 as [-> _]; [|apply idle_stuck].
      rewrite app_nil_r in Hx1. subst ls.
      destruct Htr as [->| ->]; [left | right]; done.
Qed.

Lemma pass_runs_in_two_ways_witness :
  let r := pass 0 5000 in
  let n0 := goroutines.start 1 (goroutines.clock_of r) in
  let n1 := goroutines.finish (goroutines.clock_of r) in
  run goroutines.successors n0 (goroutines.pass_trace_early r) n1 ∧
  (goroutines.pass_trace_early r `prefix_of` goroutines.pass_trace_late r ∨
   goroutines.pass_trace_early r `prefix_of` goroutines.pass_trace_early r).
Proof.
  cbv zeta.
  destruct (pass_runs_in_two_ways (pass 0 5000)) as (_ & He & Hall).
  split; [exact He | exact (Hall _ _ He)].
Defined.

(** ** The earlier revision *)

Import (hints) rev0.

Lemma rev0_loop_spec g hl now :
  wf g →
  ∀ (n k : nat) (buf : string),
    rev0.highlightSample_loop g hl now n
      ((nextIndex g - Z.of_nat k) mod historySize) buf
    = Some (buf +:+
        written (rev0.row hl now
                 <$> take_while started (slot_back g <$> seq k n))).
Proof.
  intros Hg. induction n as [|n IH]; intros k buf.
  - simpl. by rewrite append_nil_r.
  - cbn [rev0.highlightSample_loop].
    rewrite step_back by (apply Z.mod_pos_bound; unfold historySize; lia).
    rewrite Zminus_mod_idemp_l.
    replace (nextIndex g - Z.of_nat k - 1)
      with (nextIndex g - 1 - Z.of_nat k) by lia.
    rewrite slot_back_index by done. simpl.
    unfold started at 1.
    destruct (time.IsZero (start (slot_back g k))); simpl.
    + by rewrite append_nil_r.
    + replace (nextIndex g - 1 - Z.of_nat k)
        with (nextIndex g - Z.of_nat (S k)) by lia.
      rewrite IH. by rewrite append_assoc.
Qed.

Lemma rev0_highlightSample_spec g hl now :
  wf g →
  rev0.highlightSample g hl now =
    Some (rev0.header +:+ nl +:+ written (rev0.row hl now <$> rendered g)).
Proof.
  intros Hg. unfold rev0.highlightSample.
  pose proof (rev0_loop_spec g hl now Hg (Z.to_nat historySize) 0) as Hs.
  replace (nextIndex g - Z.of_nat 0) with (nextIndex g) in Hs by lia.
  rewrite Z.mod_small in Hs by apply Hg.
  rewrite Hs. by rewrite append_assoc.
Qed.

Lemma rev0_row_text_no_LF hl now s : no_LF (rev0.row_text hl now s) = true.
Proof.
  unfold rev0.row_text. cbv zeta.
  rewrite !no_LF_app, verb_f_no_LF, !verb_v_no_LF.
  by destruct (bool_decide (s = hl)).
Qed.

Lemma rev0_row_row_text hl now s :
  rev0.row hl now s = rev0.row_text hl now s +:+ nl.
Proof.
  unfold rev0.row, rev0.row_text, rev0.Sprintf_row. cbv zeta.
  by rewrite !append_assoc.
Qed.

Lemma rev0_lines_rows hl now ss :
  lines (written (rev0.row hl now <$> ss)) = rev0.row_text hl now <$> ss.
Proof.
  induction ss as [|s ss IH]; [done|].
  change (lines (rev0.row hl now s +:+ written (rev0.row hl now <$> ss))
          = rev0.row_text hl now s :: (rev0.row_text hl now <$> ss)).
  rewrite rev0_row_row_text, append_assoc, lines_line
    by apply rev0_row_text_no_LF.
  by rewrite IH.
Qed.

Lemma rev0_data_rows g hl now :
  wf g →
  ∃ table,
    rev0.highlightSample g hl now = Some table ∧
    lines table = rev0.header :: data_rows table ∧
    data_rows table = rev0.row_text hl now <$> rendered g.
Proof.
  intros Hg. eexists. split; [by apply rev0_highlightSample_spec|].
  unfold data_rows.
  rewrite lines_line by reflexivity. by rewrite rev0_lines_rows.
Qed.

Lemma rev0_marked_row_text hl now s :
  marked (rev0.row_text hl now s) = bool_decide (s = hl).
Proof.
  unfold marked, rev0.row_text. cbv zeta.
  destruct (bool_decide (s = hl)).
  - rewrite <- !append_assoc. apply HasSuffix_append.
  - rewrite append_nil_r, <- !append_assoc. apply HasSuffix_bar.
Qed.

Lemma rendered_started g s : s ∈ rendered g → started s = true.
Proof.
  unfold rendered. generalize (backward g). intros l.
  induction l as [|x l IH]; simpl; [by intros ?%elem_of_nil|].
  destruct (started x) eqn:Hx; [|by intros ?%elem_of_nil].
  intros [->|Hs]%elem_of_cons; [done | by apply IH].
Qed.



(** X12. In the earlier revision [Samples] renders without
    highlighting: on every buffer that satisfies the invariant,
    whatever the samples and the thresholds, no data row of its table
    carries the marker - the sample it asks to highlight is the zero
    value, and a slot that holds the zero start time is never
    rendered. *)
Theorem rev0_Samples_never_marks :
  ∀ (g : globals) (now : time.Time),
    wf g →
    ∃ table : string,
      rev0.Samples g now = Some table ∧
      length (data_rows table) = length (rendered g) ∧
      Forall (λ line, marked line = false) (data_rows table).
Proof.
  intros g now Hg. unfold rev0.Samples.
  destruct (rev0_data_rows g zero_sample now Hg) as (table & Hs & Hl & Hd).
  exists table. split; [done|]. split; [by rewrite Hd, length_fmap|].
  rewrite Hd, Forall_fmap. apply Forall_forall. intros s Hin. simpl.
  rewrite rev0_marked_row_text. apply bool_decide_eq_false.
  intros ->. by apply rendered_started in Hin.
Qed.

Lemma rev0_Samples_never_marks_witness :
  wf after_slow_pass ∧
  ∃ table : string,
    rev0.Samples after_slow_pass (at_ns (1 * time.Second)) = Some table ∧
    length (data_rows table) = length (rendered after_slow_pass) ∧
    Forall (λ line, marked line = false) (data_rows table).
Proof.
  assert (wf after_slow_pass) as Hg
    by (split; [reflexivity | by vm_compute]).
  split; [exact Hg|].
  exact (rev0_Samples_never_marks after_slow_pass
           (at_ns (1 * time.Second)) Hg).
Defined.

Lemma exceedsb_overThreshold g s :
  exceedsb (thresholds_of g) s = overThreshold g s.
Proof. reflexivity. Qed.

Lemma exceedsb_exceeds t s : exceedsb t s = true ↔ exceeds t s.
Proof.
  unfold exceedsb, exceeds. rewrite !orb_true_iff, !Z.ltb_lt. tauto.
Qed.

Lemma last_exceeding_snoc l s t o :
  last_exceeding (l ++ [(s, t)]) o
  = if exceedsb t s then Some s else last_exceeding l o.
Proof.
  revert o. induction l as [|[s' t'] l IH]; intros o; simpl; [done|].
  apply IH.
Qed.

Lemma wf_rev0_initial : wf rev0.initial.
Proof. split; [reflexivity | unfold historySize; simpl; lia]. Qed.

Section Rev0Loop.

Context {W : Type} `{Warner W}.

Lemma rev0_loop_bad (evs : list (event W)) :
  ∀ (st : rev0.loop_state) (acc : list (sample * thresholds)),
    wf (rev0.pkg st) →
    rev0.bad st = last_exceeding acc None →
    ∃ st' ws,
      rev0.loop st evs = Some (st', ws) ∧
      wf (rev0.pkg st') ∧
      rev0.bad st' =
        last_exceeding
          (since_check (thresholds_of (rev0.pkg st)) evs acc) None.
Proof.
  induction evs as [|e evs IH]; intros st acc Hg Hb.
  - by exists st, [].
  - destruct e as [r|w now|t];
      cbn [rev0.loop rev0.loop_body since_check].
    + destruct (collectSample_wf (rev0.pkg st) r Hg) as (g' & -> & Hg' & Ht).
      cbn [mbind option_bind].
      destruct (IH {| rev0.pkg := g';
                      rev0.bad := if overThreshold g' (measure r)
                                  then Some (measure r) else rev0.bad st |}
                  (acc ++ [(measure r, thresholds_of (rev0.pkg st))]))
        as (st' & ws & -> & Hg'' & Hb'); [done| |].
      * cbn [rev0.bad]. rewrite last_exceeding_snoc, <- Ht.
        rewrite exceedsb_overThreshold, Hb. done.
      * cbn [rev0.pkg] in Hb'. rewrite Ht in Hb'.
        cbn [mbind option_bind]. eauto.
    + destruct (rev0.bad st) as [b|] eqn:Hbad.
      * rewrite rev0_highlightSample_spec by done. cbn [mbind option_bind].
        destruct (IH {| rev0.pkg := rev0.pkg st; rev0.bad := None |} [])
          as (st' & ws & -> & Hg'' & Hb'); [done|done|].
        cbn [mbind option_bind]. eauto.
      * cbn [mbind option_bind].
        destruct (IH st []) as (st' & ws & -> & Hg'' & Hb'); [done|done|].
        cbn [mbind option_bind]. eauto.
    + cbn [mbind option_bind].
      destruct (IH {| rev0.pkg := set_thresholds (rev0.pkg st) t;
                      rev0.bad := rev0.bad st |} acc)
        as (st' & ws & -> & Hg'' & Hb');
        [by apply wf_set_thresholds|done|].
      cbn [rev0.pkg] in Hb'. rewrite thresholds_of_set_thresholds in Hb'.
      cbn [mbind option_bind]. eauto.
Qed.

End Rev0Loop.

(** X13. In the earlier revision the loop remembers one sample: after
    any sequence of ticks, Checks and assignments to the thresholds,
    from the start, which it serves without failure, [bad] is the most
    recent sample recorded since the last Check that exceeded the
    thresholds in force when it was recorded, and nil when there is
    none. A Check then makes one call of [Warningf], with the table
    that highlights that sample, and sets [bad] to nil; with [bad] nil
    it makes no call. *)
Theorem rev0_Check_highlights_latest_bad_sample :
  ∀ (W : Type) (Wn : Warner W) (evs : list (event W)) (w : W)
    (now : time.Time),
    ∃ (st st' : rev0.loop_state) (ws : list W) (w' : W),
      rev0.loop rev0.loop_start evs = Some (st, ws) ∧
      rev0.bad st =
        last_exceeding (since_check (thresholds_of rev0.initial) evs [])
          None ∧
      rev0.loop_body st (Check w now) = Some (st', Some w') ∧
      match rev0.bad st with
      | Some b =>
          ∃ table,
            rev0.highlightSample (rev0.pkg st) b now = Some table ∧
            w' = Warningf w warning_format [ArgInt 100; ArgString table]
      | None => w' = w
      end ∧
      rev0.bad st' = None.
Proof.
  intros W Wn evs w now.
  destruct (rev0_loop_bad evs rev0.loop_start [] wf_rev0_initial eq_refl)
    as (st & ws & Hl & Hg & Hb).
  assert (∃ st' w',
            rev0.loop_body st (Check w now) = Some (st', Some w') ∧
            match rev0.bad st with
            | Some b =>
                ∃ table,
                  rev0.highlightSample (rev0.pkg st) b now = Some table ∧
                  w' = Warningf w warning_format
                         [ArgInt 100; ArgString table]
            | None => w' = w
            end ∧
            rev0.bad st' = None) as (st' & w' & Hc & Hm & Hn).
  { unfold Check. cbn [rev0.loop_body].
    destruct (rev0.bad st) as [b|] eqn:Hbad.
    - rewrite rev0_highlightSample_spec by done.
      cbn [mbind option_bind]. eexists _, _. split; [reflexivity|].
      split; [|done]. eexists. split; reflexivity.
    - by exists st, w. }
  by exists st, st', ws, w'.
Qed.

(** ** Warnings and markers *)

Lemma rendered_elem_of_samples g s : wf g → s ∈ rendered g → s ∈ samples g.
Proof.
  intros Hg Hs. unfold rendered in Hs.
  assert (s ∈ backward g) as Hb.
  { revert Hs. generalize (backward g). intros l.
    induction l as [|x l IH]; simpl; [done|].
    destruct (started x); [|by intros ?%elem_of_nil].
    intros [->|Hs]%elem_of_cons; [left | right; auto]. }
  apply list_elem_of_lookup in Hb as [k Hk].
  pose proof (lookup_lt_Some _ _ _ Hk) as Hlt.
  rewrite backward_length in Hlt.
  rewrite backward_lookup in Hk by done. injection Hk as <-.
  pose proof (slot_back_index g k Hg) as Hi.
  unfold index in Hi. destruct (_ && _); [|done].
  by apply list_elem_of_lookup_2 in Hi.
Qed.

Lemma record_elem_of g s g' x :
  record g s = Some g' → x ∈ samples g' → x = s ∨ x ∈ samples g.
Proof.
  unfold record. destruct (assign _ _ _) as [smp|] eqn:Ha; [|done].
  simpl. intros [= <-]. simpl. unfold assign in Ha.
  destruct (_ && _); [|done]. injection Ha as <-.
  intros [j Hj]%list_elem_of_lookup.
  apply list_lookup_insert_Some in Hj as [(_ & -> & _)|[_ Hj]]; [by left|].
  right. by apply list_elem_of_lookup_2 in Hj.
Qed.

(** X14. The warning follows the thresholds of the time of the pass,
    the markers those of the time of the Check. From every state of the
    loop that satisfies the invariant: a tick whose sample exceeds the
    thresholds in force sets [bad]; an assignment to the thresholds
    does not clear it; so the next Check warns. If the new thresholds
    are so high that neither this sample nor any sample in the buffer
    exceeds them, the table of that warning has no marked row. *)
Theorem warning_after_raised_thresholds_has_no_marker :
  ∀ (W : Type) (Wn : Warner W) (st : loop_state) (r : readings)
    (t' : thresholds) (w : W) (now : time.Time),
    wf (pkg st) →
    exceeds (thresholds_of (pkg st)) (measure r) →
    Forall (λ s, ¬ exceeds t' s) (measure r :: samples (pkg st)) →
    ∃ (st1 st2 st3 : loop_state) (table : string),
      loop_body st (Tick r) = Some (st1, None) ∧
      loop_body st1 (Configure t') = Some (st2, None) ∧
      bad st2 = true ∧
      loop_body st2 (Check w now)
      = Some (st3, Some (Warningf w warning_format
                           [ArgInt 100; ArgString table])) ∧
      Samples (pkg st2) now = Some table ∧
      Forall (λ line, marked line = false) (data_rows table).
Proof.
  intros W Wn st r t' w now Hg Hex Hquiet.
  destruct (collectSample_wf (pkg st) r Hg) as (g' & Hc & Hg' & Ht).
  assert (overThreshold g' (measure r) = true) as Hover
    by (apply overThreshold_exceeds; by rewrite Ht).
  pose proof (wf_set_thresholds g' t' Hg') as Hg2.
  destruct (Samples_lines _ now Hg2) as (table & Hs & _).
  exists {| pkg := g'; bad := true |},
         {| pkg := set_thresholds g' t'; bad := true |},
         {| pkg := set_thresholds g' t'; bad := false |}, table.
  cbn [loop_body pkg bad]. rewrite Hc. cbn [mbind option_bind].
  rewrite Hover. split; [done|]. split; [done|]. split; [done|].
  unfold Check. cbn [loop_body pkg bad]. rewrite Hs. cbn [mbind option_bind].
  split; [done|]. split; [done|].
  rewrite (Samples_data_rows _ now table Hg2 Hs), Forall_fmap.
  apply Forall_forall. intros s Hin. simpl.
  rewrite marked_row_text. apply overThreshold_not_exceeds.
  rewrite thresholds_of_set_thresholds.
  rewrite rendered_set_thresholds in Hin.
  apply rendered_elem_of_samples in Hin; [|done].
  unfold collectSample in Hc.
  destruct (record (pkg st) (measure r)) as [g1|] eqn:Hr; [|done].
  injection Hc as ->.
  rewrite Forall_forall in Hquiet. apply Hquiet.
  destruct (record_elem_of _ _ _ _ Hr Hin) as [->|Hold]; [left | by right].
Qed.

Lemma warning_after_raised_thresholds_has_no_marker_witness :
  let r := pass 0 22000 in
  let t' := mkThresholds 1000000 10000 10000 100000 in
  let now := at_ns (1 * time.Second) in
  wf (pkg loop_start) ∧
  exceeds (thresholds_of (pkg loop_start)) (measure r) ∧
  Forall (λ s, ¬ exceeds t' s) (measure r :: samples (pkg loop_start)) ∧
  ∃ (st1 st2 st3 : loop_state) (table : string),
    loop_body loop_start (Tick r) = Some (st1, None) ∧
    loop_body (W := list (string * list arg)) st1 (Configure t')
    = Some (st2, None) ∧
    bad st2 = true ∧
    loop_body st2 (Check (W := list (string * list arg)) [] now)
    = Some (st3, Some (Warningf [] warning_format
                         [ArgInt 100; ArgString table])) ∧
    Samples (pkg st2) now = Some table ∧
    Forall (λ line, marked line = false) (data_rows table).
Proof.
  cbv zeta.
  assert (wf (pkg loop_start)) as Hg
    by (split; [reflexivity | by vm_compute]).
  assert (exceeds (thresholds_of (pkg loop_start)) (measure (pass 0 22000)))
    as Hex by (apply overThreshold_exceeds; reflexivity).
  assert (Forall (λ s, ¬ exceeds (mkThresholds 1000000 10000 10000 100000) s)
            (measure (pass 0 22000) :: samples (pkg loop_start))) as Hq.
  { apply Forall_forall. intros s Hs.
    apply (overThreshold_not_exceeds
             (set_thresholds initial
                (mkThresholds 1000000 10000 10000 100000))).
    apply elem_of_cons in Hs as [->|Hs]; [reflexivity|].
    apply elem_of_replicate in Hs as [-> _]. reflexivity. }
  split; [exact Hg|]. split; [exact Hex|]. split; [exact Hq|].
  exact (warning_after_raised_thresholds_has_no_marker _ recorder
           loop_start (pass 0 22000)
           (mkThresholds 1000000 10000 10000 100000) []
           (at_ns (1 * time.Second)) Hg Hex Hq).
Defined.

(** ** Counting the warnings *)



(** ** The chain of the earlier revision *)

Lemma rev0_pass_all_runs rest clk tk (t : time.Time * time.Time) :
  all_runs rev0chain.successors 25
    (rev0chain.mkNet [] None (rev0chain.probe ++ rest)
       (t.1 :: t.2 :: clk) tk)
  = [(rev0chain.pass_trace t,
      rev0chain.mkNet [] None rest clk (tk ++ [t.1; t.2]))].
Proof.
  destruct t as [t3 t4]. cbn [fst snd].
  change (tk ++ [t3; t4]) with (tk ++ [t3] ++ [t4]).
  rewrite (assoc_L (++) tk [t3] [t4]).
  vm_compute. reflexivity.
Qed.

(** After the reading [t3] the pass builds its chain: 20 goroutines,
    wired like the ones [init] starts in the later revision. *)
Lemma rev0_build_run rest clk tk t :
  run rev0chain.successors
    (rev0chain.mkNet [] None (rev0chain.probe ++ rest) (t :: clk) tk)
    [rev0chain.Read t; rev0chain.Built 20]
    (rev0chain.mkNet (pipeline.relays pipeline.init) (Some (0%nat, 20%nat))
       ([rev0chain.SendHead true; rev0chain.RecvTail; rev0chain.Now;
         rev0chain.Return] ++ rest) clk (tk ++ [t])).
Proof.
  apply (run_cons _ _ _
           (rev0chain.mkNet [] None
              ([rev0chain.Build; rev0chain.SendHead true; rev0chain.RecvTail;
                rev0chain.Now; rev0chain.Return] ++ rest) clk (tk ++ [t]))).
  { vm_compute. left. }
  apply (run_cons _ _ _
           (rev0chain.mkNet (pipeline.relays pipeline.init)
              (Some (0%nat, 20%nat))
              ([rev0chain.SendHead true; rev0chain.RecvTail; rev0chain.Now;
                rev0chain.Return] ++ rest) clk (tk ++ [t]))).
  { vm_compute. left. }
  constructor.
Qed.

Lemma rev0_between_stuck clk tk :
  rev0chain.successors (rev0chain.between 0 clk tk) = [].
Proof. reflexivity. Qed.

Lemma rev0_passes_run (ts : list (time.Time * time.Time)) :
  ∀ tk,
    run rev0chain.successors
      (rev0chain.between (length ts) (pipeline.readings_of ts) tk)
      (ts ≫= rev0chain.pass_trace)
      (rev0chain.between 0 [] (tk ++ pipeline.readings_of ts)) ∧
    ∀ ls n',
      run rev0chain.successors
        (rev0chain.between (length ts) (pipeline.readings_of ts) tk) ls n' →
      ls `prefix_of` ts ≫= rev0chain.pass_trace.
Proof.
  induction ts as [|t ts IH]; intros tk.
  - change (pipeline.readings_of []) with (@nil time.Time).
    rewrite app_nil_r. split; [constructor|].
    intros ls n' He.
    by apply stuck_run in He as [-> _]; [|apply rev0_between_stuck].
  - change (rev0chain.between (length (t :: ts))
              (pipeline.readings_of (t :: ts)) tk)
      with (rev0chain.mkNet [] None
              (rev0chain.probe ++ mjoin (replicate (length ts) rev0chain.probe))
              (t.1 :: t.2 :: pipeline.readings_of ts) tk).
    change (pipeline.readings_of (t :: ts))
      with ([t.1; t.2] ++ pipeline.readings_of ts).
    change ((t :: ts) ≫= rev0chain.pass_trace)
      with (rev0chain.pass_trace t ++ ts ≫= rev0chain.pass_trace).
    rewrite (assoc_L (++)).
    pose proof (rev0_pass_all_runs
                  (mjoin (replicate (length ts) rev0chain.probe))
                  (pipeline.readings_of ts) tk t) as Hruns.
    destruct (IH (tk ++ [t.1; t.2])) as [He' Hall'].
    split.
    + eapply run_app; [|exact He'].
      apply (all_runs_run rev0chain.successors 25 _
               (rev0chain.pass_trace t, _)).
      rewrite Hruns. by left.
    + intros ls n' He.
      destruct (all_runs_cover rev0chain.successors 25 _ _ _ He)
        as [(x & ls' & Hin & Hx1 & _) | (x & ls2 & Hin & _ & Hx1 & Hx2)];
        rewrite Hruns in Hin; apply list_elem_of_singleton in Hin as ->;
        cbn [fst snd] in *.
      * apply prefix_app_r. rewrite Hx1. by apply prefix_app_r.
      * rewrite Hx1. apply prefix_app. by apply (Hall' ls2 n').
Qed.

(** X16. The earlier revision builds its chain at every pass and leaves
    nothing of it behind. After the reading [t3] a pass makes 21
    channels and starts 20 goroutines, wired in a line like the ones
    [init] starts in the later revision, before the token is sent: the
    chain duration covers the building. For any number of passes, one
    after the other, there is one way to run: in each pass the chain is
    built, the token goes over [head], through the 20 goroutines, each
    of which ends once it has passed the token on, and over [tail],
    the clock is read and the function returns; every execution is the
    beginning of that run; and between two passes, as after the last,
    no goroutine of a chain is alive. *)
Theorem rev0_chain_is_rebuilt_and_gone_each_pass :
  (∀ (rest : list rev0chain.instr) (clk tk : list time.Time)
     (t : time.Time),
     run rev0chain.successors
       (rev0chain.mkNet [] None (rev0chain.probe ++ rest) (t :: clk) tk)
       [rev0chain.Read t; rev0chain.Built 20]
       (rev0chain.mkNet (pipeline.relays pipeline.init)
          (Some (0%nat, 20%nat))
          ([rev0chain.SendHead true; rev0chain.RecvTail; rev0chain.Now;
            rev0chain.Return] ++ rest) clk (tk ++ [t]))) ∧
  ∀ (ts : list (time.Time * time.Time)),
    let n0 := rev0chain.between (length ts) (pipeline.readings_of ts) [] in
    let n1 := rev0chain.between 0 [] (pipeline.readings_of ts) in
    run rev0chain.successors n0 (ts ≫= rev0chain.pass_trace) n1 ∧
    rev0chain.live n1 = [] ∧
    rev0chain.successors n1 = [] ∧
    ∀ ls n',
      run rev0chain.successors n0 ls n' →
      ls `prefix_of` ts ≫= rev0chain.pass_trace.
Proof.
  split; [apply rev0_build_run|].
  intros ts. cbv zeta. destruct (rev0_passes_run ts []) as [He Hall].
  split; [exact He|]. split; [exact eq_refl|].
  split; [apply rev0_between_stuck | exact Hall].
Qed.

Lemma rev0_chain_is_rebuilt_and_gone_each_pass_witness :
  let ts := [(at_ns 50005000, at_ns 50945000)] in
  let n0 := rev0chain.between (length ts) (pipeline.readings_of ts) [] in
  let n1 := rev0chain.between 0 [] (pipeline.readings_of ts) in
  run rev0chain.successors n0 (ts ≫= rev0chain.pass_trace) n1 ∧
  (ts ≫= rev0chain.pass_trace) `prefix_of` (ts ≫= rev0chain.pass_trace).
Proof.
  cbv zeta.
  destruct (proj2 rev0_chain_is_rebuilt_and_gone_each_pass
              [(at_ns 50005000, at_ns 50945000)]) as (He & _ & _ & Hall).
  split; [exact He | exact (Hall _ _ He)].
Defined.
